(** * typed-board: schema builder, schema publisher, typed requests, transport

    A shallow embedding of the type-flow pipeline of the typed-board
    repository:

    - [Prisma]: the [Post] table of [prisma/schema.prisma] and the two
      data-access calls the resolvers use ([post.create], [post.findMany]);
    - [Schema]: the Pothos builder calls of [packages/api/src/schema.ts],
      the schema graph they produce, its SDL printer and the resolvers;
    - [Fs]: file URLs, paths and the two [node:fs/promises] calls used by
      [writeSchema];
    - [Publisher]: both revisions of [writeSchema];
    - [Server]: [packages/api/src/index.ts] and [post-build.ts];
    - [Zeus]: the generated tables of [src/zeus/const.ts] and the selection
      shapes of the typed request layer;
    - [Transport]: [thunder], [query] and [mutate] of [src/lib/zeus.ts]. *)

From stdpp Require Import base option list sorting gmap strings pretty.
From Stdlib Require Import ZArith Ascii String.

Local Open Scope Z_scope.

(** ** Results of fallible calls

    A rejected promise or a thrown exception carries an error value; the
    callers in this repository never inspect it. *)

Inductive Error :=
  | ENOENT      (* no such file or directory *)
  | ENOTDIR     (* a path component is not a directory *)
  | EISDIR      (* the target of a write is a directory *)
  | EEXIST      (* mkdir over an existing file *)
  | ERR_INVALID_URL
  | ERR_INVALID_FILE_URL_PATH
  | URIError
  | NetworkError
  | SyntaxError (* response body is not JSON *)
  | ERR_INVALID_ARG_VALUE (* a path with a null byte *)
  | TypeError   (* destructuring null or undefined *)
  | GenerationError (* the typed request generator refuses a selection *).

Inductive Promise (A : Type) :=
  | Resolved (a : A)
  | Rejected (e : Error).
Arguments Resolved {A} a.
Arguments Rejected {A} e.

Definition then_ {A B} (p : Promise A) (k : A -> Promise B) : Promise B :=
  match p with
  | Resolved a => k a
  | Rejected e => Rejected e
  end.

Notation "'try' x <- p ; k" := (then_ p (fun x => k))
  (at level 10, x name, p at level 100, k at level 200).

Definition is_resolved {A} (p : Promise A) : bool :=
  match p with Resolved _ => true | Rejected _ => false end.

(** An asynchronous computation over a mutable world [S] (the file system,
    the database, the network): it settles and leaves a new world. A
    rejection keeps the effects made before it. *)
Definition IO (S A : Type) : Type := S -> Promise A * S.

Definition ret {S A} (a : A) : IO S A := fun s => (Resolved a, s).

Definition lift {S A} (p : Promise A) : IO S A := fun s => (p, s).

Definition bind {S A B} (m : IO S A) (k : A -> IO S B) : IO S B :=
  fun s =>
    match m s with
    | (Resolved a, s') => k a s'
    | (Rejected e, s') => (Rejected e, s')
    end.

Notation "'await' x <- m ; k" := (bind m (fun x => k))
  (at level 10, x name, m at level 100, k at level 200).

(** ** The persistence layer *)

Module Prisma.

(** [model Post { id Int @id @default(autoincrement()); title String; body String }] *)
Record Post := { id : Z; title : string; body : string }.

#[global] Instance Post_eq_dec : EqDecision Post.
Proof. solve_decision. Defined.

(** The table in insertion order, and the SQLite AUTOINCREMENT counter
    (the largest identifier handed out so far). *)
Record PrismaClient := { rows : list Post; sequence : Z }.

Definition empty_db : PrismaClient := {| rows := []; sequence := 0 |}.

Record PostCreateInput := { data_title : string; data_body : string }.

(** [prisma.post.create({ data })] *)
Definition create (data : PostCreateInput) (db : PrismaClient)
  : Post * PrismaClient :=
  let p := {| id := sequence db + 1;
              title := data_title data;
              body := data_body data |} in
  (p, {| rows := rows db ++ [p]; sequence := sequence db + 1 |}).

Inductive SortOrder := asc | desc.
Inductive PostScalarField := Post_id | Post_title | Post_body.

(** The part of [findMany]'s argument that the repository uses:
    the column selection Pothos passes in [query], [orderBy] and [take]. *)
Record FindManyArgs := {
  select : option (list string);
  orderBy : option (PostScalarField * SortOrder);
  take : option nat
}.

Definition key_le (f : PostScalarField) (a b : Post) : Prop :=
  match f with
  | Post_id => id a <= id b
  | Post_title => String.leb (title a) (title b) = true
  | Post_body => String.leb (body a) (body b) = true
  end.

Definition order_rel (o : PostScalarField * SortOrder) : relation Post :=
  match snd o with
  | asc => key_le (fst o)
  | desc => flip (key_le (fst o))
  end.

#[global] Instance key_le_dec f a b : Decision (key_le f a b).
Proof. destruct f; simpl; apply _. Defined.

#[global] Instance order_rel_dec o a b : Decision (order_rel o a b).
Proof. destruct o as [f []]; simpl; unfold order_rel, flip; simpl; apply _. Defined.

Definition apply_order (o : option (PostScalarField * SortOrder))
  (l : list Post) : list Post :=
  match o with
  | Some o => merge_sort (order_rel o) l
  | None => l
  end.

Definition apply_take (n : option nat) (l : list Post) : list Post :=
  match n with
  | Some n => firstn n l
  | None => l
  end.

(** [prisma.post.findMany(args)]: every row, ordered, then cut to [take].
    [select] narrows columns only; rows keep all three here and the
    GraphQL executor projects them. *)
Definition findMany (args : FindManyArgs) (db : PrismaClient) : list Post :=
  apply_take (take args) (apply_order (orderBy args) (rows db)).

End Prisma.

(** ** JavaScript values carried by JSON

    [JUndefined] is what a missing property reads as; [JSON.stringify]
    drops it from objects, and no parsed response contains it. Numbers are
    the integers the application uses. *)

#[local] Set Warnings "-register-all".

Inductive Json :=
  | JUndefined
  | JNull
  | JBool (b : bool)
  | JNum (z : Z)
  | JStr (s : string)
  | JArr (items : list Json)
  | JObj (props : list (string * Json)).

Definition dquote : ascii := "034"%char.
Definition backslash : ascii := "092"%char.
Definition newline : string := String "010"%char EmptyString.

Definition hex_digit (n : nat) : ascii :=
  ascii_of_nat (if (n <? 10)%nat then 48 + n else 87 + n).

(** One character of a string literal, escaped as [JSON.stringify] does. *)
Definition escape_char (c : ascii) : string :=
  let n := nat_of_ascii c in
  if (n =? 34)%nat then String backslash (String dquote EmptyString)
  else if (n =? 92)%nat then String backslash (String backslash EmptyString)
  else if (n =? 8)%nat then String backslash "b"
  else if (n =? 9)%nat then String backslash "t"
  else if (n =? 10)%nat then String backslash "n"
  else if (n =? 12)%nat then String backslash "f"
  else if (n =? 13)%nat then String backslash "r"
  else if (n <? 32)%nat then
    String backslash
      (String "u" (String "0" (String "0"
        (String (hex_digit (n / 16)) (String (hex_digit (n mod 16)) EmptyString)))))
  else String c EmptyString.

Fixpoint escape (s : string) : string :=
  match s with
  | EmptyString => EmptyString
  | String c s' => escape_char c +:+ escape s'
  end.

Definition quote (s : string) : string :=
  String dquote (escape s) +:+ String dquote EmptyString.

Fixpoint join (sep : string) (l : list string) : string :=
  match l with
  | [] => EmptyString
  | [s] => s
  | s :: l' => s +:+ sep +:+ join sep l'
  end.

(** [JSON.stringify(j)]; [None] is the [undefined] it returns for
    [undefined]. *)
Fixpoint stringify (j : Json) : option string :=
  match j with
  | JUndefined => None
  | JNull => Some "null"
  | JBool b => Some (if b then "true" else "false")
  | JNum z => Some (pretty z)
  | JStr s => Some (quote s)
  | JArr items =>
      Some ("[" +:+ join "," (map (fun x => default "null" (stringify x)) items) +:+ "]")
  | JObj props =>
      Some ("{" +:+
            join "," (omap (fun kv => (fun s => quote (fst kv) +:+ ":" +:+ s)
                                        <$> stringify (snd kv)) props)
            +:+ "}")
  end.

(** Property read [o.k] on a value that is neither [null] nor [undefined]:
    the last definition of a key wins, as in a parsed object. *)
Fixpoint get_prop (k : string) (props : list (string * Json)) : Json :=
  match props with
  | [] => JUndefined
  | (k', v) :: rest =>
      match get_prop k rest with
      | JUndefined => if String.eqb k k' then v else JUndefined
      | later => later
      end
  end.

(** ** The schema builder and the schema it produces *)

Module Schema.
Import Prisma.

Inductive TypeRef :=
  | Named (n : string)
  | ListOf (t : TypeRef)
  | NonNull (t : TypeRef).

Record InputValue := { arg_name : string; arg_type : TypeRef }.

Record FieldDef := {
  field_name : string;
  field_args : list InputValue;
  field_type : TypeRef
}.

Record ObjectType := { type_name : string; type_fields : list FieldDef }.

(** The schema graph: object types in registration order. The root types
    are the ones named [Query] and [Mutation]. *)
Record GraphQLSchema := { types : list ObjectType }.

(** *** Pothos field builder ([t]) *)

Record FieldConfig := { fc_args : list InputValue; fc_type : TypeRef }.

(** [type: PostType] or [type: [PostType]] *)
Inductive TypeParam :=
  | Ref (n : string)
  | ListRef (n : string).

(** Pothos' default nullability: fields and list items are non-null. *)
Definition output_type (p : TypeParam) : TypeRef :=
  match p with
  | Ref n => NonNull (Named n)
  | ListRef n => NonNull (ListOf (NonNull (Named n)))
  end.

Definition exposeID (column : string) : FieldConfig :=
  {| fc_args := []; fc_type := NonNull (Named "ID") |}.

Definition exposeString (column : string) : FieldConfig :=
  {| fc_args := []; fc_type := NonNull (Named "String") |}.

(** [t.arg.string({ required })] *)
Definition arg_string (required : bool) : TypeRef :=
  if required then NonNull (Named "String") else Named "String".

(** [t.prismaField({ type, args, resolve })]; the resolver is kept apart,
    see [resolve_posts] and [resolve_createPost]. *)
Definition prismaField (type : TypeParam) (args : list (string * TypeRef))
  : FieldConfig :=
  {| fc_args := map (fun a => {| arg_name := fst a; arg_type := snd a |}) args;
     fc_type := output_type type |}.

Definition object_of (name : string) (fields : list (string * FieldConfig))
  : ObjectType :=
  {| type_name := name;
     type_fields :=
       map (fun f => {| field_name := fst f;
                        field_args := fc_args (snd f);
                        field_type := fc_type (snd f) |}) fields |}.

(** *** Pothos schema builder, as state passing over the registered types *)

Definition SchemaBuilder := list ObjectType.

Definition new_SchemaBuilder : SchemaBuilder := [].

Definition prismaObject (name : string) (fields : list (string * FieldConfig))
  (b : SchemaBuilder) : string * SchemaBuilder :=
  (name, b ++ [object_of name fields]).

Definition queryType (fields : list (string * FieldConfig)) (b : SchemaBuilder)
  : SchemaBuilder :=
  b ++ [object_of "Query" fields].

Definition mutationType (fields : list (string * FieldConfig)) (b : SchemaBuilder)
  : SchemaBuilder :=
  b ++ [object_of "Mutation" fields].

(** Sorting by name. graphql-js compares names with [naturalCompare],
    which is the byte order used here on names without digits. *)
Definition name_le {A} (name : A -> string) : relation A :=
  fun a b => String.leb (name a) (name b) = true.

#[global] Instance name_le_dec {A} (name : A -> string) a b :
  Decision (name_le name a b).
Proof. unfold name_le. apply _. Defined.

Definition sort_by_name {A} (name : A -> string) (l : list A) : list A :=
  merge_sort (name_le name) l.

(** [lexicographicSortSchema]: types, fields and arguments by name. *)
Definition lexicographicSortSchema (s : GraphQLSchema) : GraphQLSchema :=
  {| types :=
       sort_by_name type_name
         (map (fun t =>
                 {| type_name := type_name t;
                    type_fields :=
                      sort_by_name field_name
                        (map (fun f =>
                                {| field_name := field_name f;
                                   field_args :=
                                     sort_by_name arg_name (field_args f);
                                   field_type := field_type f |})
                             (type_fields t)) |})
              (types s)) |}.

(** [builder.toSchema()]: Pothos sorts the schema unless told otherwise,
    which is the order the generated tables of [const.ts] show. *)
Definition toSchema (b : SchemaBuilder) : GraphQLSchema :=
  lexicographicSortSchema {| types := b |}.

(** *** [schema.ts] *)

Definition builder : SchemaBuilder :=
  let b := new_SchemaBuilder in
  let '(PostType, b) :=
    prismaObject "Post"
      [("id", exposeID "id");
       ("title", exposeString "title");
       ("body", exposeString "body")] b in
  let b :=
    queryType [("posts", prismaField (ListRef PostType) [])] b in
  let b :=
    mutationType
      [("createPost",
        prismaField (Ref PostType)
          [("title", arg_string true); ("body", arg_string true)])] b in
  b.

Definition schema : GraphQLSchema := toSchema builder.

(** What Pothos hands to a [prismaField] resolver as [query]. *)
Record PothosQuery := { q_select : option (list string) }.

(** [(query) => prisma.post.findMany({ ...query, orderBy: { id: "desc" } })] *)
Definition resolve_posts (query : PothosQuery) (db : PrismaClient) : list Post :=
  findMany {| select := q_select query;
              orderBy := Some (Post_id, desc);
              take := None |} db.

(** [(query, _, { title, body }) => prisma.post.create({ ...query, data: { title, body } })] *)
Definition resolve_createPost (query : PothosQuery) (title body : string)
  (db : PrismaClient) : Post * PrismaClient :=
  create {| data_title := title; data_body := body |} db.

(** *** Lookups in the schema graph *)

Definition find_type (s : GraphQLSchema) (name : string) : option ObjectType :=
  List.find (fun t => String.eqb (type_name t) name) (types s).

Definition find_field (s : GraphQLSchema) (ty fld : string) : option FieldDef :=
  t ← find_type s ty;
  List.find (fun f => String.eqb (field_name f) fld) (type_fields t).

Definition accepts_argument (s : GraphQLSchema) (ty fld arg : string) : bool :=
  match find_field s ty fld with
  | Some f => existsb (fun a => String.eqb (arg_name a) arg) (field_args f)
  | None => false
  end.

(** *** [printSchema] of graphql-js, for object types *)

Fixpoint print_type (t : TypeRef) : string :=
  match t with
  | Named n => n
  | ListOf t => "[" +:+ print_type t +:+ "]"
  | NonNull t => print_type t +:+ "!"
  end.

Definition print_input_value (a : InputValue) : string :=
  arg_name a +:+ ": " +:+ print_type (arg_type a).

Definition print_args (args : list InputValue) : string :=
  match args with
  | [] => ""
  | _ => "(" +:+ join ", " (map print_input_value args) +:+ ")"
  end.

Definition print_field (f : FieldDef) : string :=
  "  " +:+ field_name f +:+ print_args (field_args f) +:+ ": "
       +:+ print_type (field_type f).

Definition print_object (t : ObjectType) : string :=
  "type " +:+ type_name t +:+ " {" +:+ newline
    +:+ join newline (map print_field (type_fields t)) +:+ newline +:+ "}".

Definition printSchema (s : GraphQLSchema) : string :=
  join (newline +:+ newline) (map print_object (types s)).

End Schema.

(** ** File URLs, paths and the file system *)

Module Fs.

(** *** [new URL(...)] for the [file:] scheme with an empty host

    The path state of the URL parser. The parser percent-encodes a few
    characters of a segment (space, angle brackets, braces, ...) and
    [fileURLToPath] decodes them again; the model keeps them as they are. *)

Record URL := {
  url_path : list string;
  url_query : option string;
  url_fragment : option string
}.

Definition is_slash (c : ascii) : bool :=
  Ascii.eqb c "/" || Ascii.eqb c backslash.

Definition is_tab_or_newline (c : ascii) : bool :=
  let n := nat_of_ascii c in
  ((n =? 9) || (n =? 10) || (n =? 13))%nat.

Fixpoint remove_tab_newline (s : string) : string :=
  match s with
  | EmptyString => EmptyString
  | String c s' =>
      if is_tab_or_newline c then remove_tab_newline s'
      else String c (remove_tab_newline s')
  end.

Definition is_alpha (c : ascii) : bool :=
  let n := nat_of_ascii c in
  (((65 <=? n) && (n <=? 90)) || ((97 <=? n) && (n <=? 122)))%nat.

Definition lower_char (c : ascii) : ascii :=
  let n := nat_of_ascii c in
  if ((65 <=? n) && (n <=? 90))%nat then ascii_of_nat (n + 32) else c.

Fixpoint lower (s : string) : string :=
  match s with
  | EmptyString => EmptyString
  | String c s' => String (lower_char c) (lower s')
  end.

Definition is_single_dot (buffer : string) : bool :=
  let b := lower buffer in
  String.eqb b "." || String.eqb b "%2e".

Definition is_double_dot (buffer : string) : bool :=
  let b := lower buffer in
  String.eqb b ".." || String.eqb b ".%2e" || String.eqb b "%2e."
  || String.eqb b "%2e%2e".

Definition is_windows_drive_letter (s : string) : bool :=
  match s with
  | String a (String b EmptyString) =>
      is_alpha a && (Ascii.eqb b ":" || Ascii.eqb b "|")
  | _ => false
  end.

Definition is_normalized_drive_letter (s : string) : bool :=
  match s with
  | String a (String b EmptyString) => is_alpha a && Ascii.eqb b ":"
  | _ => false
  end.

Definition starts_with_drive_letter (s : string) : bool :=
  match s with
  | String a (String b rest) =>
      is_alpha a && (Ascii.eqb b ":" || Ascii.eqb b "|")
      && match rest with
         | EmptyString => true
         | String c _ => is_slash c || Ascii.eqb c "?" || Ascii.eqb c "#"
         end
  | _ => false
  end.

Definition shorten (path : list string) : list string :=
  match path with
  | [seg] => if is_normalized_drive_letter seg then path else []
  | _ => removelast path
  end.

Definition normalize_drive (path : list string) (buffer : string) : string :=
  match path, buffer with
  | [], String a (String _ EmptyString) =>
      if is_windows_drive_letter buffer then String a ":" else buffer
  | _, _ => buffer
  end.

(** End of a path segment; [slash] tells whether a slash ended it. *)
Definition end_segment (path : list string) (buffer : string) (slash : bool)
  : list string :=
  if is_double_dot buffer then
    if slash then shorten path else shorten path ++ [""]
  else if is_single_dot buffer then
    if slash then path else path ++ [""]
  else path ++ [normalize_drive path buffer].

Fixpoint query_state (path : list string) (query : string) (input : string) : URL :=
  match input with
  | EmptyString =>
      {| url_path := path; url_query := Some query; url_fragment := None |}
  | String c rest =>
      if Ascii.eqb c "#" then
        {| url_path := path; url_query := Some query; url_fragment := Some rest |}
      else query_state path (query +:+ String c EmptyString) rest
  end.

Fixpoint path_state (path : list string) (buffer : string) (input : string) : URL :=
  match input with
  | EmptyString =>
      {| url_path := end_segment path buffer false;
         url_query := None; url_fragment := None |}
  | String c rest =>
      if is_slash c then path_state (end_segment path buffer true) "" rest
      else if Ascii.eqb c "?" then
        query_state (end_segment path buffer false) "" rest
      else if Ascii.eqb c "#" then
        {| url_path := end_segment path buffer false;
           url_query := None; url_fragment := Some rest |}
      else path_state path (buffer +:+ String c EmptyString) rest
  end.

(** [new URL(input)] for an input that starts with [file:///], the only
    scheme and authority this repository writes. The inputs built here
    start with a letter and end with a slash, so the trimming of leading
    and trailing spaces and control characters has nothing to remove. *)
Definition parse_file_url (input : string) : Promise URL :=
  let s := remove_tab_newline input in
  if String.prefix "file:///" s
  then Resolved (path_state [] "" (String.substring 8 (String.length s - 8) s))
  else Rejected ERR_INVALID_URL.

(** [new URL(reference, base)] for a reference that is a relative path
    (it has no scheme and starts with none of [/ \ ? #]). *)
Definition new_URL (reference : string) (base : string) : Promise URL :=
  try b <- parse_file_url base;
  let r := remove_tab_newline reference in
  let path := if starts_with_drive_letter r then [] else shorten (url_path b) in
  Resolved (path_state path "" r).

(** A slash before every segment. *)
Definition absolute (segments : list string) : string :=
  foldr (fun seg rest => "/" +:+ seg +:+ rest) "" segments.

Definition pathname (u : URL) : string := absolute (url_path u).

(** *** [fileURLToPath] on POSIX, as [node:fs] applies it to a URL argument *)

Definition hex_value (c : ascii) : option nat :=
  let n := nat_of_ascii c in
  if ((48 <=? n) && (n <=? 57))%nat then Some (n - 48)%nat
  else if ((65 <=? n) && (n <=? 70))%nat then Some (n - 55)%nat
  else if ((97 <=? n) && (n <=? 102))%nat then Some (n - 87)%nat
  else None.

(** [%2f] or [%2F] anywhere in the pathname. *)
Fixpoint has_encoded_slash (s : string) : bool :=
  match s with
  | EmptyString => false
  | String c s' =>
      (Ascii.eqb c "%"
       && match s' with
          | String a (String b _) =>
              Ascii.eqb a "2" && (Ascii.eqb b "f" || Ascii.eqb b "F")
          | _ => false
          end)
      || has_encoded_slash s'
  end.

(** The continuation bytes a UTF-8 lead byte asks for, as inclusive ranges;
    [None] for a byte that starts no code point. *)
Definition continuation_ranges (b : nat) : option (list (nat * nat)) :=
  if (b <? 128)%nat then Some []
  else if (b <? 194)%nat then None
  else if (b <? 224)%nat then Some [(128, 191)]%nat
  else if (b =? 224)%nat then Some [(160, 191); (128, 191)]%nat
  else if (b =? 237)%nat then Some [(128, 159); (128, 191)]%nat
  else if (b <? 240)%nat then Some [(128, 191); (128, 191)]%nat
  else if (b =? 240)%nat then Some [(144, 191); (128, 191); (128, 191)]%nat
  else if (b <? 244)%nat then Some [(128, 191); (128, 191); (128, 191)]%nat
  else if (b =? 244)%nat then Some [(128, 143); (128, 191); (128, 191)]%nat
  else None.

(** [decodeURIComponent]: every [%XX] becomes its byte; escapes of
    non-ASCII bytes must spell whole UTF-8 code points. [expect] holds the
    ranges of the continuation escapes still owed. *)
Fixpoint decodeURIComponent_from (expect : list (nat * nat)) (s : string)
  : Promise string :=
  match s with
  | EmptyString =>
      match expect with
      | [] => Resolved EmptyString
      | _ => Rejected URIError
      end
  | String c s' =>
      if Ascii.eqb c "%" then
        match s' with
        | String h1 (String h2 rest) =>
            match hex_value h1, hex_value h2 with
            | Some x, Some y =>
                let b := (16 * x + y)%nat in
                match expect with
                | (lo, hi) :: more =>
                    if ((lo <=? b) && (b <=? hi))%nat then
                      try r <- decodeURIComponent_from more rest;
                      Resolved (String (ascii_of_nat b) r)
                    else Rejected URIError
                | [] =>
                    match continuation_ranges b with
                    | Some ranges =>
                        try r <- decodeURIComponent_from ranges rest;
                        Resolved (String (ascii_of_nat b) r)
                    | None => Rejected URIError
                    end
                end
            | _, _ => Rejected URIError
            end
        | _ => Rejected URIError
        end
      else
        match expect with
        | [] =>
            try r <- decodeURIComponent_from [] s';
            Resolved (String c r)
        | _ => Rejected URIError
        end
  end.

Definition decodeURIComponent : string -> Promise string :=
  decodeURIComponent_from [].

Definition fileURLToPath (u : URL) : Promise string :=
  let p := pathname u in
  if has_encoded_slash p then Rejected ERR_INVALID_FILE_URL_PATH
  else decodeURIComponent p.

(** *** The file tree *)

Inductive Node :=
  | Dir
  | File (content : string).

(** Absolute paths as their components; the root [[]] is a directory and
    has no entry. Permissions and disk space are not modelled: every
    directory is writable and a write that has begun completes. *)
Abbreviation FileSystem := (gmap (list string) Node).

(** Splitting a path at its slashes; empty components vanish, as in path
    resolution. [current] is the component being read. The paths that
    come out of a URL have no [.] or [..] component left: the parser has
    resolved them. *)
Fixpoint components_from (current : string) (p : string) : list string :=
  match p with
  | EmptyString =>
      if String.eqb current "" then [] else [current]
  | String c p' =>
      if Ascii.eqb c "/" then
        (if String.eqb current "" then [] else [current]) ++ components_from "" p'
      else components_from (current +:+ String c EmptyString) p'
  end.

Definition components : string -> list string := components_from "".

Fixpoint has_null_byte (s : string) : bool :=
  match s with
  | EmptyString => false
  | String c s' => (nat_of_ascii c =? 0)%nat || has_null_byte s'
  end.

(** Every directory on the way to a file must exist. *)
Fixpoint walk (fs : FileSystem) (prefix dirs : list string) : Promise unit :=
  match dirs with
  | [] => Resolved tt
  | d :: rest =>
      match fs !! (prefix ++ [d]) with
      | Some Dir => walk fs (prefix ++ [d]) rest
      | Some (File _) => Rejected ENOTDIR
      | None => Rejected ENOENT
      end
  end.

(** [writeFile(path, data)]: creates the file or replaces its content. *)
Definition writeFile_path (p : string) (data : string) : IO FileSystem unit :=
  fun fs =>
    if has_null_byte p then (Rejected ERR_INVALID_ARG_VALUE, fs) else
    match components p with
    | [] => (Rejected EISDIR, fs)
    | comps =>
        match walk fs [] (removelast comps) with
        | Rejected e => (Rejected e, fs)
        | Resolved _ =>
            match fs !! comps with
            | Some Dir => (Rejected EISDIR, fs)
            | _ => (Resolved tt, <[comps := File data]> fs)
            end
        end
    end.

(** Whether a path is written with a slash at its end. *)
Fixpoint ends_with_slash (p : string) : bool :=
  match p with
  | EmptyString => false
  | String c EmptyString => Ascii.eqb c "/"
  | String _ p' => ends_with_slash p'
  end.

(** [mkdir(path, { recursive: true })], directory by directory. A file
    where a directory has to be is ENOTDIR; a file at the end of the path
    is EEXIST, unless the path is written with a slash at its end
    ([slash]): then the look at what is there fails with ENOTDIR. *)
Fixpoint mkdir_from (slash : bool) (prefix comps : list string)
  : IO FileSystem unit :=
  fun fs =>
    match comps with
    | [] => (Resolved tt, fs)
    | d :: rest =>
        match fs !! (prefix ++ [d]) with
        | Some Dir => mkdir_from slash (prefix ++ [d]) rest fs
        | Some (File _) =>
            (Rejected (match rest with
                       | [] => if slash then ENOTDIR else EEXIST
                       | _ => ENOTDIR
                       end), fs)
        | None =>
            mkdir_from slash (prefix ++ [d]) rest (<[prefix ++ [d] := Dir]> fs)
        end
    end.

Definition mkdir_recursive_path (p : string) : IO FileSystem unit :=
  fun fs =>
    if has_null_byte p then (Rejected ERR_INVALID_ARG_VALUE, fs)
    else mkdir_from (ends_with_slash p) [] (components p) fs.

(** The two calls with a URL argument, as [schema.ts] makes them. *)
Definition writeFile (file : Promise URL) (data : string) : IO FileSystem unit :=
  await u <- lift file;
  await p <- lift (fileURLToPath u);
  writeFile_path p data.

Definition mkdir_recursive (dir : Promise URL) : IO FileSystem unit :=
  await u <- lift dir;
  await p <- lift (fileURLToPath u);
  mkdir_recursive_path p.

End Fs.

(** ** The schema publisher *)

Module Publisher.
Import Schema Fs.

(** The URL [`file:///${process.cwd()}/`]. *)
Definition cwd_url (cwd : string) : string := "file:///" +:+ cwd +:+ "/".

(** Where [writeSchema] writes, for a working directory. *)
Definition target (cwd : string) : Promise string :=
  try u <- new_URL "build/schema.graphql" (cwd_url cwd);
  fileURLToPath u.

(** [writeSchema] of [packages/api/src/schema.ts], for the schema it is
    given:
<<
  writeFile(new URL("build/schema.graphql", `file:///${process.cwd()}/`),
            printSchema(schema))
>> *)
Definition writeSchema_of (s : GraphQLSchema) (cwd : string) : IO FileSystem unit :=
  writeFile (new_URL "build/schema.graphql" (cwd_url cwd)) (printSchema s).

Definition writeSchema : string -> IO FileSystem unit := writeSchema_of schema.

(** The other revision of [schema.ts], which first makes the directory:
<<
  await mkdir(new URL(`file:///${process.cwd()}/build/`), { recursive: true });
  return writeFile(...)
>> *)
Definition writeSchema_mkdir_of (s : GraphQLSchema) (cwd : string)
  : IO FileSystem unit :=
  await _ <- mkdir_recursive (parse_file_url ("file:///" +:+ cwd +:+ "/build/"));
  writeFile (new_URL "build/schema.graphql" (cwd_url cwd)) (printSchema s).

Definition writeSchema_mkdir : string -> IO FileSystem unit :=
  writeSchema_mkdir_of schema.

End Publisher.

(** ** The API server process *)

Module Server.
Import Prisma Schema Fs Publisher.

(** What the process can touch: the file tree, the database, and the
    port it listens on once started. The SQLite file is not an entry of
    [files]: what it holds is [database], and a request that creates a
    post changes [database]. *)
Record World := {
  files : FileSystem;
  database : PrismaClient;
  listening : option Z
}.

Definition with_files {A} (m : IO FileSystem A) : IO World A :=
  fun w =>
    let '(r, fs) := m (files w) in
    (r, {| files := fs; database := database w; listening := listening w |}).

(** [createServer(yoga).listen(port, ...)] *)
Definition listen (port : Z) : IO World unit :=
  fun w =>
    (Resolved tt,
     {| files := files w; database := database w; listening := Some port |}).

(** [index.ts]: start the HTTP server on port 4000, then
    [await writeSchema()]. *)
Definition index_ts (cwd : string) : IO World unit :=
  await _ <- listen 4000;
  with_files (writeSchema cwd).

(** [post-build.ts]: [await writeSchema()], run by the build script. *)
Definition post_build_ts (cwd : string) : IO World unit :=
  with_files (writeSchema cwd).

(** The operations the schema offers, with the fields selected on [Post]. *)
Inductive Operation :=
  | posts (selection : list string)
  | createPost (title body : string) (selection : list string).

Definition post_field (p : Post) (f : string) : option Json :=
  if String.eqb f "id" then Some (JStr (pretty (id p)))
  else if String.eqb f "title" then Some (JStr (title p))
  else if String.eqb f "body" then Some (JStr (body p))
  else if String.eqb f "__typename" then Some (JStr "Post")
  else None.

Definition project (selection : list string) (p : Post) : Json :=
  JObj (omap (fun f => pair f <$> post_field p f) selection).

Definition valid_selection (selection : list string) : bool :=
  match selection with
  | [] => false
  | _ => forallb (fun f => bool_decide (is_Some (post_field
                     {| id := 0; title := ""; body := "" |} f))) selection
  end.

Definition error_payload (message : string) : Json :=
  JObj [("errors", JArr [JObj [("message", JStr message)]])].

(** One GraphQL request handled by Yoga over [schema]: validation, then
    the resolver of the root field, then the selected fields. *)
Definition handle (op : Operation) : IO World Json :=
  fun w =>
    match op with
    | posts selection =>
        if valid_selection selection then
          let found :=
            resolve_posts {| q_select := Some selection |} (database w) in
          (Resolved (JObj [("data",
             JObj [("posts", JArr (map (project selection) found))])]), w)
        else (Resolved (error_payload "invalid selection"), w)
    | createPost title body selection =>
        if valid_selection selection then
          let '(p, db) :=
            resolve_createPost {| q_select := Some selection |} title body
              (database w) in
          (Resolved (JObj [("data",
             JObj [("createPost", project selection p)])]),
           {| files := files w; database := db; listening := listening w |})
        else (Resolved (error_payload "invalid selection"), w)
    end.

(** A step of the running system. *)
Inductive Step :=
  | Build         (* [yarn build]: ... && node ./build/post-build.js *)
  | Startup       (* [node index.js] or [yarn dev] *)
  | Request (op : Operation).

Definition run (cwd : string) (s : Step) (w : World) : World :=
  match s with
  | Build => snd (post_build_ts cwd w)
  | Startup => snd (index_ts cwd w)
  | Request op => snd (handle op w)
  end.

End Server.

(** ** The generated client *)

Module Zeus.
Import Schema.

(** *** [src/zeus/const.ts] *)

Definition AllTypesProps : gmap string (gmap string (gmap string string)) :=
  {[ "Mutation" := {[ "createPost" := ∅ ]} ]}.

Definition ReturnTypes : gmap string (gmap string string) :=
  {[ "Mutation" := {[ "createPost" := "Post" ]};
     "Post" := {[ "body" := "String"; "id" := "ID"; "title" := "String" ]};
     "Query" := {[ "posts" := "Post" ]} ]}.

Inductive OperationType := query_op | mutation_op.

Definition Ops (o : OperationType) : string :=
  match o with
  | mutation_op => "Mutation"
  | query_op => "Query"
  end.

(** The named type under the list and non-null wrappers. *)
Fixpoint base_name (t : TypeRef) : string :=
  match t with
  | Named n => n
  | ListOf t | NonNull t => base_name t
  end.

(** The table [ReturnTypes] as the generator reads it off a schema. *)
Definition return_types_of (s : GraphQLSchema) : gmap string (gmap string string) :=
  list_to_map
    (map (fun t =>
            (type_name t,
             list_to_map
               (map (fun f => (field_name f, base_name (field_type f)))
                    (type_fields t))))
         (types s)).

(** *** Selection shapes

    What a caller writes: [true] or [false] on a field, an object of
    sub-selections, or the pair [[arguments, selection]]. *)
Inductive Selection :=
  | Mark (wanted : bool)
  | Shape (fields : list (string * Selection))
  | Call (args : list (string * Json)) (selection : Selection).

Definition wanted (s : Selection) : bool :=
  match s with
  | Mark b => b
  | _ => true
  end.

(** *** Derived result types *)

Inductive ResultType :=
  | RScalar (n : string)
  | RObject (fields : list (string * ResultType))
  | RList (t : ResultType)
  | RNonNull (t : ResultType).

(** The wrappers of a schema type put around a derived type: this is where
    nullability is taken from the schema. *)
Fixpoint rewrap (t : TypeRef) (inner : ResultType) : ResultType :=
  match t with
  | Named _ => inner
  | ListOf t => RList (rewrap t inner)
  | NonNull t => RNonNull (rewrap t inner)
  end.

(** Modelled from the spec: part of [derive] below, whose source, the
    generated [src/zeus/index.ts], is not among the sources. The fields a
    selection keeps, each with its derived type: those it marks as wanted
    and the type [ty] declares, in the order written. [rec] derives the
    type of a sub-selection. *)
Definition pick_with (rec : Selection -> TypeRef -> Promise ResultType)
  (s : GraphQLSchema) (ty : string)
  : list (string * Selection) -> Promise (list (string * ResultType)) :=
  fix pick (l : list (string * Selection)) :=
    match l with
    | [] => Resolved []
    | entry :: rest =>
        match find_field s ty (fst entry) with
        | Some fd =>
            if wanted (snd entry) then
              try r <- rec (snd entry) (field_type fd);
              try more <- pick rest;
              Resolved ((fst entry, r) :: more)
            else pick rest
        | None => pick rest
        end
    end.

(** Modelled from the spec: the generated [src/zeus/index.ts], whose types
    derive the result type of a selection, is not among the sources. The
    derived type of a selection [sel] against the schema type [t] keeps,
    of the fields the selection marks as wanted, those that [t] declares,
    each with the wrappers [t] gives it; a selection that keeps no field
    of an object type is refused. *)
Fixpoint derive (s : GraphQLSchema) (sel : Selection) (t : TypeRef)
  : Promise ResultType :=
  match sel with
  | Call _ sel' => derive s sel' t
  | Mark _ =>
      match find_type s (base_name t) with
      | None => Resolved (rewrap t (RScalar (base_name t)))
      | Some _ => Rejected GenerationError
      end
  | Shape fields =>
      match find_type s (base_name t) with
      | None => Rejected GenerationError
      | Some _ =>
          try picked <- pick_with (derive s) s (base_name t) fields;
          match picked with
          | [] => Rejected GenerationError
          | _ => Resolved (rewrap t (RObject picked))
          end
      end
  end.

(** The fields a selection asks for. *)
Definition wanted_fields (fields : list (string * Selection)) : list string :=
  map fst (List.filter (fun entry => wanted (snd entry)) fields).

(** Whether a derived type carries the list and non-null wrappers of a
    schema type, one for one. *)
Fixpoint same_nullability (t : TypeRef) (r : ResultType) : bool :=
  match t, r with
  | Named _, (RScalar _ | RObject _) => true
  | ListOf t, RList r => same_nullability t r
  | NonNull t, RNonNull r => same_nullability t r
  | _, _ => false
  end.

(** An object type without fields, under any wrappers. *)
Fixpoint empty_object (r : ResultType) : bool :=
  match r with
  | RObject [] => true
  | RList r | RNonNull r => empty_object r
  | _ => false
  end.

End Zeus.

(** ** The transport wrapper, [src/lib/zeus.ts] *)

Module Transport.
Import Zeus.

Record RequestInit := {
  method : string;
  headers : list (string * string);
  body : option string
}.

Record Request := { url : string; init : RequestInit }.

(** A response as the wrapper sees it: the status, which it never reads,
    and what [response.json()] settles to. *)
Record Response := { status : Z; json : Promise Json }.

(** The network: every request sent so far. *)
Definition Network := list Request.

(** A [fetch] capability: SvelteKit's [LoadEvent["fetch"]] or the ambient
    one. *)
Definition Fetch := string -> RequestInit -> IO Network Response.

(** The [fetch] that reaches a server answering [respond]. *)
Definition fetch_from (respond : Request -> Promise Response) : Fetch :=
  fun url init sent =>
    let request := {| url := url; init := init |} in
    (respond request, sent ++ [request]).

(** The arguments written in a selection, root field by root field. *)
Definition arguments_of (o : Selection) : list (string * Json) :=
  match o with
  | Shape fields =>
      flat_map (fun f => match snd f with
                         | Call args _ => args
                         | _ => []
                         end) fields
  | Call args _ => args
  | Mark _ => []
  end.

(** [({ data }) => data] *)
Definition destructure_data (j : Json) : Promise Json :=
  match j with
  | JUndefined | JNull => Rejected TypeError
  | JObj props => Resolved (get_prop "data" props)
  | _ => Resolved JUndefined
  end.

Definition endpoint : string := "http://localhost:4000/graphql".

Section Wrapper.

(** The operation text the generated client writes for an operation and a
    selection. The generated [src/zeus/index.ts] is not among the sources
    and nothing below depends on the text. *)
Variable Zeus_text : OperationType -> Selection -> string.

(** Modelled from the spec: [Thunder] of the generated [src/zeus/index.ts],
    which is not among the sources. It hands the function it wraps the
    operation text and the arguments of the request as variables, and
    gives the caller what that function returns. *)
Definition Thunder (fn : string -> Json -> IO Network Json)
  (operation : OperationType) (o : Selection) : IO Network Json :=
  fn (Zeus_text operation o) (JObj (arguments_of o)).

(** [thunder]:
<<
  Thunder((query, variables) =>
    fetch("http://localhost:4000/graphql", {
      method: "POST",
      headers: { "Content-Type": "application/json" },
      body: JSON.stringify({ query, variables }),
    })
      .then((response) => response.json())
      .then(({ data }) => data))
>> *)
Definition thunder (fetch : Fetch) : OperationType -> Selection -> IO Network Json :=
  Thunder (fun query variables =>
    await response <-
      fetch endpoint
        {| method := "POST";
           headers := [("Content-Type", "application/json")];
           body := stringify (JObj [("query", JStr query);
                                    ("variables", variables)]) |};
    await parsed <- lift (json response);
    lift (destructure_data parsed)).

(** [query(query, { fetch })] *)
Definition query (q : Selection) (fetch : Fetch) : IO Network Json :=
  thunder fetch query_op q.

(** [mutate(mutation)], over the ambient [fetch]. *)
Definition mutate (ambient_fetch : Fetch) (mutation : Selection) : IO Network Json :=
  thunder ambient_fetch mutation_op mutation.

End Wrapper.

(** [+page.svelte]: [mutate({ createPost: [{ body, title }, { id: true }] })] *)
Definition createPost_mutation (title body : string) : Selection :=
  Shape [("createPost",
          Call [("body", JStr body); ("title", JStr title)]
               (Shape [("id", Mark true)]))].

(** [+page.ts]: [query({ posts: { id: true, title: true, body: true } }, { fetch })] *)
Definition posts_query : Selection :=
  Shape [("posts",
          Shape [("id", Mark true); ("title", Mark true); ("body", Mark true)])].

End Transport.

(** * Properties *)

(** ** Strings *)

Lemma string_app_cons (x : ascii) (a b : string) :
  String x a +:+ b = String x (a +:+ b).
Proof. reflexivity. Qed.

Lemma string_app_assoc (a b c : string) : (a +:+ b) +:+ c = a +:+ (b +:+ c).
Proof.
  induction a as [|x a IH]; [reflexivity |].
  rewrite !string_app_cons, IH. reflexivity.
Qed.

Lemma string_app_empty_r (a : string) : a +:+ "" = a.
Proof.
  induction a as [|x a IH]; [reflexivity |].
  rewrite string_app_cons, IH. reflexivity.
Qed.


(** ** The list operation *)

Section ListOperation.
Import Prisma Schema.

(** Creating posts one after the other. *)
Definition create_all (inputs : list PostCreateInput) (db : PrismaClient)
  : PrismaClient :=
  foldl (fun db d => snd (create d db)) db inputs.

Definition by_id_desc : relation Post := order_rel (Post_id, desc).

#[local] Instance by_id_desc_total : Total by_id_desc.
Proof. intros a b. unfold by_id_desc, order_rel, flip; simpl. lia. Qed.

#[local] Instance by_id_desc_trans : Transitive by_id_desc.
Proof. intros a b c. unfold by_id_desc, order_rel, flip; simpl. lia. Qed.

Lemma resolve_posts_unfold query db :
  resolve_posts query db = merge_sort by_id_desc (rows db).
Proof. reflexivity. Qed.

(** Identifiers grow along the table and never pass the counter. *)
Definition autoincremented (db : PrismaClient) : Prop :=
  StronglySorted (fun a b => id a < id b) (rows db)
  /\ Forall (fun p => id p <= sequence db) (rows db).

Lemma autoincremented_empty : autoincremented empty_db.
Proof. split; constructor. Qed.

Lemma autoincremented_create d db :
  autoincremented db -> autoincremented (snd (create d db)).
Proof.
  intros [Hs Hb]. split; simpl.
  - apply StronglySorted_app_2; [| assumption | repeat constructor].
    intros a b Ha Hb'. apply list_elem_of_singleton in Hb'. subst b. simpl.
    rewrite Forall_forall in Hb. specialize (Hb a Ha). lia.
  - apply Forall_app. split.
    + eapply Forall_impl; [exact Hb |]. simpl. intros. lia.
    + repeat constructor. simpl. lia.
Qed.

Lemma autoincremented_create_all inputs db :
  autoincremented db -> autoincremented (create_all inputs db).
Proof.
  revert db. induction inputs as [|d inputs IH]; intros db H; simpl.
  - exact H.
  - apply IH, autoincremented_create, H.
Qed.

Lemma StronglySorted_reverse_lt (l : list Post) :
  StronglySorted (fun a b => id a < id b) l ->
  StronglySorted by_id_desc (reverse l).
Proof.
  induction 1 as [|a l Hl IH Ha]; [constructor |].
  rewrite reverse_cons. apply StronglySorted_app_2; [| exact IH | repeat constructor].
  intros x y Hx Hy. apply list_elem_of_singleton in Hy. subst y.
  rewrite elem_of_reverse in Hx. rewrite Forall_forall in Ha.
  specialize (Ha x Hx). unfold by_id_desc, order_rel, flip; simpl. lia.
Qed.

Lemma increasing_ids_inj (l : list Post) a b :
  StronglySorted (fun a b => id a < id b) l ->
  a ∈ l -> b ∈ l -> id a = id b -> a = b.
Proof.
  induction 1 as [|x l Hl IH Hx]; intros Ha Hb E.
  - inversion Ha.
  - rewrite Forall_forall in Hx.
    apply elem_of_cons in Ha as [-> | Ha]; apply elem_of_cons in Hb as [-> | Hb].
    + reflexivity.
    + specialize (Hx b Hb). lia.
    + specialize (Hx a Ha). lia.
    + auto.
Qed.

Lemma resolve_posts_autoincremented query db :
  autoincremented db -> resolve_posts query db = reverse (rows db).
Proof.
  intros [Hs _]. rewrite resolve_posts_unfold.
  apply (StronglySorted_unique_strong by_id_desc).
  - intros a b Ha Hb Hab Hba.
    apply (increasing_ids_inj (rows db)); [exact Hs | | |].
    + rewrite merge_sort_Permutation in Ha. exact Ha.
    + rewrite elem_of_reverse in Hb. exact Hb.
    + unfold by_id_desc, order_rel, flip in *; simpl in *. lia.
  - apply StronglySorted_merge_sort; apply _.
  - apply StronglySorted_reverse_lt, Hs.
  - rewrite merge_sort_Permutation. symmetry. apply reverse_Permutation.
Qed.

(** C3 (as amended): the [posts] resolver returns every row of the table,
    ordered by identifier, largest first; on a table filled by successive
    [create] calls that is the creation order reversed, so posts created
    as P1, P2, P3 come back as P3, P2, P1. No maximum count is applied. *)
Theorem posts_all_by_id_desc :
  (forall query db,
      resolve_posts query db ≡ₚ rows db
      /\ StronglySorted (fun a b => id b <= id a) (resolve_posts query db))
  /\ (forall query inputs,
        resolve_posts query (create_all inputs empty_db)
        = reverse (rows (create_all inputs empty_db)))
  /\ (forall query p1 p2 p3,
        resolve_posts query (create_all [p1; p2; p3] empty_db)
        = [ {| id := 3; title := data_title p3; body := data_body p3 |};
            {| id := 2; title := data_title p2; body := data_body p2 |};
            {| id := 1; title := data_title p1; body := data_body p1 |} ]).
Proof.
  split; [| split].
  - intros query db. rewrite resolve_posts_unfold. split.
    + apply merge_sort_Permutation.
    + apply (StronglySorted_merge_sort by_id_desc).
  - intros query inputs. apply resolve_posts_autoincremented.
    apply autoincremented_create_all, autoincremented_empty.
  - intros query p1 p2 p3.
    rewrite resolve_posts_autoincremented
      by apply autoincremented_create_all, autoincremented_empty.
    reflexivity.
Qed.

Definition sample_input : PostCreateInput :=
  {| data_title := "A"; data_body := "B" |}.

(** C3 as stated fails: eleven posts in the table, eleven posts returned. *)
Lemma posts_exceeds_ten :
  ~ (forall query db, (List.length (resolve_posts query db) <= 10)%nat).
Proof.
  intros H.
  specialize (H {| q_select := None |}
                (create_all (replicate 11 sample_input) empty_db)).
  vm_compute in H. lia.
Qed.

End ListOperation.

(** ** The public contract of the list field *)

Section ListFieldContract.
Import Prisma Schema Zeus.

(** The field [posts: [Post!]!] as the builder registers it. *)
Definition posts_field : FieldDef :=
  {| field_name := "posts";
     field_args := [];
     field_type := NonNull (ListOf (NonNull (Named "Post"))) |}.

(** C4 as stated fails: the [posts] field takes no argument at all, so
    there is no pair of an order argument and a limit argument. *)
Lemma posts_field_has_no_order_or_limit :
  ~ (exists order limit,
        accepts_argument schema "Query" "posts" order = true
        /\ accepts_argument schema "Query" "posts" limit = true).
Proof. intros (order & limit & H & _). vm_compute in H. discriminate. Qed.

(** C4 (as amended): the public signature of the list field is
    [posts: [Post!]!] without arguments, and the generated client has no
    argument table for [Query]; the order (identifier, descending) is
    fixed inside the resolver and no count is passed, so nothing the
    caller sends changes which rows come back or in which order. *)
Theorem posts_field_contract :
  find_field schema "Query" "posts" = Some posts_field
  /\ (forall arg, accepts_argument schema "Query" "posts" arg = false)
  /\ AllTypesProps !! "Query" = None
  /\ (forall query db,
        resolve_posts query db
        = findMany {| select := q_select query;
                      orderBy := Some (Post_id, desc);
                      take := None |} db)
  /\ (forall query query' db, resolve_posts query db = resolve_posts query' db).
Proof.
  split; [reflexivity |].
  split; [intros arg; reflexivity |].
  split; [reflexivity |].
  split; [reflexivity |].
  intros query query' db. reflexivity.
Qed.

End ListFieldContract.

(** ** Who writes the artifact *)

Section ArtifactLifecycle.
Import Prisma Schema Fs Publisher Server.

Lemma handle_keeps_files op w : files (snd (handle op w)) = files w.
Proof.
  destruct op as [selection | title body selection]; unfold handle.
  - destruct (valid_selection selection); reflexivity.
  - destruct (valid_selection selection); [| reflexivity].
    destruct (resolve_createPost _ title body (database w)); reflexivity.
Qed.

Lemma with_files_files {A} (m : IO FileSystem A) w :
  files (snd (with_files m w)) = snd (m (files w)).
Proof. unfold with_files. destruct (m (files w)); reflexivity. Qed.

(** A checkout built some time ago: [build/] holds the artifact of an
    older schema. *)
Definition stale_files : FileSystem :=
  {[ ["srv"] := Dir;
     ["srv"; "app"] := Dir;
     ["srv"; "app"; "build"] := Dir;
     ["srv"; "app"; "build"; "schema.graphql"] := File "type Query" ]}.

Definition stale_world : World :=
  {| files := stale_files; database := empty_db; listening := None |}.

(** C7 as stated fails: starting the server is a step of normal operation
    and it rewrites the artifact. *)
Lemma startup_rewrites_artifact :
  ~ (forall cwd step w,
        step <> Build -> files (run cwd step w) = files w).
Proof.
  intros H. specialize (H "/srv/app" Startup stale_world).
  assert (E : files (run "/srv/app" Startup stale_world)
                !! ["srv"; "app"; "build"; "schema.graphql"]
              = Some (File "type Query")).
  { rewrite H by discriminate. reflexivity. }
  vm_compute in E. discriminate.
Qed.

End ArtifactLifecycle.

(** ** Publishing twice *)

Section Idempotence.
Import Schema Fs Publisher.

(** A write below the directories that [walk] visits does not change what
    it finds. *)
Lemma walk_insert_deeper (fs : FileSystem) (k : list string) (v : Node)
  (dirs prefix : list string) :
  (List.length prefix + List.length dirs < List.length k)%nat ->
  walk (<[k := v]> fs) prefix dirs = walk fs prefix dirs.
Proof.
  revert prefix. induction dirs as [|d dirs IH]; intros prefix Hlen; simpl.
  - reflexivity.
  - assert (Hne : k <> prefix ++ [d]).
    { intros ->. rewrite length_app in Hlen. simpl in Hlen. lia. }
    rewrite lookup_insert_ne by exact Hne.
    destruct (fs !! (prefix ++ [d])) as [[|content]|]; try reflexivity.
    apply IH. rewrite length_app. simpl in *. lia.
Qed.

Lemma length_removelast_lt {A} (l : list A) :
  l <> [] -> (List.length (removelast l) < List.length l)%nat.
Proof.
  intros H. destruct (exists_last H) as (l' & a & ->).
  rewrite removelast_last, length_app. simpl. lia.
Qed.

(** Writing the same data to the same path again changes nothing. *)
Lemma writeFile_path_twice (p data : string) (fs fs1 : FileSystem) :
  writeFile_path p data fs = (Resolved tt, fs1) ->
  fs1 !! components p = Some (File data)
  /\ writeFile_path p data fs1 = (Resolved tt, fs1).
Proof.
  unfold writeFile_path.
  destruct (has_null_byte p); [discriminate |].
  destruct (components p) as [|c comps] eqn:Ecomps; [discriminate |].
  set (k := c :: comps) in *.
  destruct (walk fs [] (removelast k)) as [[]|e] eqn:Ewalk; [| discriminate].
  destruct (fs !! k) as [[|content]|] eqn:Ek; try discriminate.
  all: intros [= <-]; split; [apply lookup_insert_eq |].
  all: rewrite walk_insert_deeper, Ewalk
         by (apply (length_removelast_lt k); discriminate).
  all: rewrite lookup_insert_eq, insert_insert_eq; reflexivity.
Qed.

(** C6: for every schema graph, a publication that succeeded leaves the
    printed schema at the target path, and publishing the same graph again
    succeeds and leaves the file system, hence the artifact, exactly as
    it was. *)
Theorem publish_twice_identical (s : GraphQLSchema) (cwd : string)
  (fs fs1 : FileSystem) :
  writeSchema_of s cwd fs = (Resolved tt, fs1) ->
  (exists p, target cwd = Resolved p
             /\ fs1 !! components p = Some (File (printSchema s)))
  /\ writeSchema_of s cwd fs1 = (Resolved tt, fs1).
Proof.
  unfold writeSchema_of, writeFile, target, bind, lift, then_.
  destruct (new_URL "build/schema.graphql" (cwd_url cwd)) as [u|e];
    [| discriminate].
  destruct (fileURLToPath u) as [p|e]; [| discriminate].
  intros H. apply writeFile_path_twice in H as [Hfile Hagain].
  split; [exists p; split; [reflexivity | exact Hfile] | exact Hagain].
Qed.

Definition built_files : FileSystem :=
  {[ ["srv"] := Dir; ["srv"; "app"] := Dir; ["srv"; "app"; "build"] := Dir ]}.

Lemma publish_twice_identical_witness :
  (exists p, target "/srv/app" = Resolved p
             /\ <[ ["srv"; "app"; "build"; "schema.graphql"]
                   := File (printSchema schema) ]> built_files
                !! components p = Some (File (printSchema schema)))
  /\ writeSchema_of schema "/srv/app"
       (<[ ["srv"; "app"; "build"; "schema.graphql"]
           := File (printSchema schema) ]> built_files)
     = (Resolved tt,
        <[ ["srv"; "app"; "build"; "schema.graphql"]
           := File (printSchema schema) ]> built_files).
Proof.
  apply (publish_twice_identical schema "/srv/app" built_files).
  vm_compute. reflexivity.
Defined.

End Idempotence.

(** ** Derived result types *)

Section DerivedTypes.
Import Schema Zeus.

Variable s : GraphQLSchema.

Lemma find_field_declared ty obj f fd :
  find_type s ty = Some obj ->
  find_field s ty f = Some fd ->
  In fd (type_fields obj) /\ field_name fd = f.
Proof.
  intros Hty. unfold find_field. rewrite Hty. simpl. intros H.
  apply find_some in H as [Hin Heq]. split; [exact Hin |].
  apply String.eqb_eq, Heq.
Qed.

Lemma declared_find_field ty obj f :
  find_type s ty = Some obj ->
  In f (map field_name (type_fields obj)) ->
  exists fd, find_field s ty f = Some fd.
Proof.
  intros Hty Hin. unfold find_field. rewrite Hty. simpl.
  apply in_map_iff in Hin as (fd0 & Hname & Hin).
  destruct (List.find (fun f0 => String.eqb (field_name f0) f) (type_fields obj))
    as [fd|] eqn:E; [eauto |].
  exfalso. apply (find_none _ _ E) in Hin. simpl in Hin.
  rewrite Hname, String.eqb_refl in Hin. discriminate.
Qed.

Lemma wanted_fields_cons entry rest :
  wanted_fields (entry :: rest)
  = if wanted (snd entry) then fst entry :: wanted_fields rest
    else wanted_fields rest.
Proof. unfold wanted_fields. simpl. destruct (wanted (snd entry)); reflexivity. Qed.

(** What [pick_with] keeps: the wanted fields that [ty] declares, each
    with the type [rec] derives for its sub-selection. *)
Lemma pick_with_spec rec ty l picked :
  pick_with rec s ty l = Resolved picked ->
  (forall f, In f (map fst picked)
             <-> In f (wanted_fields l) /\ is_Some (find_field s ty f))
  /\ (forall f rt, In (f, rt) picked ->
        exists fd sub, find_field s ty f = Some fd
                       /\ In (f, sub) l
                       /\ rec sub (field_type fd) = Resolved rt).
Proof.
  revert picked. induction l as [|[f0 sub0] rest IH]; intros picked; simpl.
  - intros [= <-]. split.
    + intros f. simpl. split; [contradiction | intros [[] _]].
    + intros f rt [].
  - rewrite wanted_fields_cons. simpl.
    destruct (find_field s ty f0) as [fd0|] eqn:Efd.
    + destruct (wanted sub0) eqn:Ew.
      * destruct (rec sub0 (field_type fd0)) as [r0|e] eqn:Er; simpl;
          [| discriminate].
        destruct (pick_with rec s ty rest) as [more|e] eqn:Em; simpl;
          [| discriminate].
        intros [= <-]. destruct (IH more eq_refl) as [IHn IHt]. split.
        -- intros f. simpl. rewrite IHn. split.
           ++ intros [<- | [Hw Hs]]; [split; [left; reflexivity | eauto] |].
              split; [right; exact Hw | exact Hs].
           ++ intros [[<- | Hw] Hs]; [left; reflexivity | right; split; assumption].
        -- intros f rt [[= <- <-] | Hin].
           ++ exists fd0, sub0. repeat split; [exact Efd | left; reflexivity | exact Er].
           ++ destruct (IHt f rt Hin) as (fd & sub & H1 & H2 & H3).
              exists fd, sub. repeat split; [exact H1 | right; exact H2 | exact H3].
      * intros H. destruct (IH picked H) as [IHn IHt]. split; [exact IHn |].
        intros f rt Hin. destruct (IHt f rt Hin) as (fd & sub & H1 & H2 & H3).
        exists fd, sub. repeat split; [exact H1 | right; exact H2 | exact H3].
    + intros H. destruct (IH picked H) as [IHn IHt]. split.
      * intros f. rewrite IHn. destruct (wanted sub0); [| reflexivity].
        simpl. split; [intros [Hw Hs]; split; [right; exact Hw | exact Hs] |].
        intros [[<- | Hw] Hs]; [| split; assumption].
        rewrite Efd in Hs. destruct Hs as [x Hx]. discriminate.
      * intros f rt Hin. destruct (IHt f rt Hin) as (fd & sub & H1 & H2 & H3).
        exists fd, sub. repeat split; [exact H1 | right; exact H2 | exact H3].
Qed.

Lemma same_nullability_rewrap t inner :
  same_nullability (Named "") inner = true ->
  same_nullability t (rewrap t inner) = true.
Proof. intros H. induction t; simpl; auto. Qed.

Lemma derive_same_nullability sel t r :
  derive s sel t = Resolved r -> same_nullability t r = true.
Proof.
  revert t r. induction sel as [b | fields | args sel IH]; intros t r; simpl.
  - destruct (find_type s (base_name t)); [discriminate |].
    intros [= <-]. apply same_nullability_rewrap. reflexivity.
  - destruct (find_type s (base_name t)); [| discriminate].
    destruct (pick_with (derive s) s (base_name t) fields) as [[|p picked]|e];
      simpl; try discriminate.
    intros [= <-]. apply same_nullability_rewrap. reflexivity.
  - apply IH.
Qed.

Lemma empty_object_rewrap t inner :
  empty_object (rewrap t inner) = empty_object inner.
Proof. induction t; simpl; auto. Qed.

Lemma derive_not_empty_object sel t r :
  derive s sel t = Resolved r -> empty_object r = false.
Proof.
  revert t r. induction sel as [b | fields | args sel IH]; intros t r; simpl.
  - destruct (find_type s (base_name t)); [discriminate |].
    intros [= <-]. rewrite empty_object_rewrap. reflexivity.
  - destruct (find_type s (base_name t)); [| discriminate].
    destruct (pick_with (derive s) s (base_name t) fields) as [[|p picked]|e];
      simpl; try discriminate.
    intros [= <-]. rewrite empty_object_rewrap. reflexivity.
  - apply IH.
Qed.

End DerivedTypes.

Section TypedRequests.
Import Schema Zeus.

(** Selections made of [true] and [false] marks only. *)
Definition flat (fields : list (string * Selection)) : Prop :=
  Forall (fun entry => exists b, snd entry = Mark b) fields.

(** Object types all of whose fields are scalars. *)
Definition scalar_fields (s : GraphQLSchema) (obj : ObjectType) : Prop :=
  Forall (fun fd => find_type s (base_name (field_type fd)) = None)
         (type_fields obj).

Lemma pick_with_flat_resolves s ty obj fields :
  find_type s ty = Some obj -> flat fields -> scalar_fields s obj ->
  exists picked, pick_with (derive s) s ty fields = Resolved picked.
Proof.
  intros Hty Hflat Hsc. induction Hflat as [|[f sub] rest [b Hb] _ IH]; simpl.
  - eauto.
  - destruct IH as [more Hmore]. simpl in Hb. subst sub.
    destruct (find_field s ty f) as [fd|] eqn:Efd; [| eauto].
    destruct b; simpl; [| eauto].
    destruct (find_field_declared s ty obj f fd Hty Efd) as [Hin _].
    unfold scalar_fields in Hsc. rewrite Forall_forall in Hsc.
    apply list_elem_of_In in Hin. rewrite (Hsc fd Hin). simpl.
    rewrite Hmore. simpl. eauto.
Qed.

Lemma pick_with_nothing_wanted s rec ty obj fields :
  find_type s ty = Some obj ->
  (forall f, In f (wanted_fields fields) ->
             ~ In f (map field_name (type_fields obj))) ->
  pick_with rec s ty fields = Resolved [].
Proof.
  intros Hty. induction fields as [|[f sub] rest IH]; intros Hnone; simpl.
  - reflexivity.
  - rewrite wanted_fields_cons in Hnone. simpl in Hnone.
    destruct (find_field s ty f) as [fd|] eqn:Efd.
    + destruct (wanted sub).
      * exfalso. apply (Hnone f); [left; reflexivity |].
        destruct (find_field_declared s ty obj f fd Hty Efd) as [Hin Hname].
        apply in_map_iff. eauto.
      * apply IH, Hnone.
    + apply IH. intros g Hg. apply Hnone.
      destruct (wanted sub); [right |]; exact Hg.
Qed.

(** C1: for a selection shape against an object type of the schema, the
    derived result type is an object, under the wrappers of the schema
    type, whose fields are exactly the fields the selection asks for that
    the type declares, each carrying the list and non-null wrappers its
    declaration has; and a selection of marks that asks for at least one
    declared field of a type with scalar fields does get a result type. *)
Theorem derive_selected_fields (s : GraphQLSchema) (t : TypeRef)
  (obj : ObjectType) (fields : list (string * Selection)) :
  find_type s (base_name t) = Some obj ->
  (forall r, derive s (Shape fields) t = Resolved r ->
     exists picked,
       r = rewrap t (RObject picked)
       /\ (forall f, In f (map fst picked)
                     <-> In f (wanted_fields fields)
                         /\ In f (map field_name (type_fields obj)))
       /\ (forall f rt, In (f, rt) picked ->
             exists fd, In fd (type_fields obj) /\ field_name fd = f
                        /\ same_nullability (field_type fd) rt = true))
  /\ (flat fields -> scalar_fields s obj ->
      (exists f, In f (wanted_fields fields)
                 /\ In f (map field_name (type_fields obj))) ->
      exists r, derive s (Shape fields) t = Resolved r).
Proof.
  intros Hty. split.
  - intros r. simpl. rewrite Hty.
    destruct (pick_with (derive s) s (base_name t) fields) as [picked|e] eqn:Ep;
      simpl; [| discriminate].
    destruct (pick_with_spec s _ _ _ _ Ep) as [Hnames Htypes].
    destruct picked as [|p picked]; [discriminate |].
    intros [= <-]. exists (p :: picked). split; [reflexivity |]. split.
    + intros f. rewrite Hnames. split; intros [Hw Hd]; (split; [exact Hw |]).
      * destruct Hd as [fd Hfd].
        destruct (find_field_declared s _ obj f fd Hty Hfd) as [Hin Hname].
        apply in_map_iff. eauto.
      * destruct (declared_find_field s _ obj f Hty Hd) as [fd Hfd]. eauto.
    + intros f rt Hin. destruct (Htypes f rt Hin) as (fd & sub & Hfd & _ & Hd).
      destruct (find_field_declared s _ obj f fd Hty Hfd) as [Hin' Hname].
      exists fd. repeat split; [exact Hin' | exact Hname |].
      eapply derive_same_nullability, Hd.
  - intros Hflat Hsc (f & Hw & Hd). simpl. rewrite Hty.
    destruct (pick_with_flat_resolves s _ obj fields Hty Hflat Hsc)
      as [picked Ep].
    rewrite Ep. simpl.
    destruct (pick_with_spec s _ _ _ _ Ep) as [Hnames _].
    destruct picked as [|p picked]; [| eauto].
    exfalso. apply (proj2 (Hnames f)).
    split; [exact Hw |]. destruct (declared_find_field s _ obj f Hty Hd); eauto.
Qed.

Definition Post_object : ObjectType :=
  {| type_name := "Post";
     type_fields :=
       [ {| field_name := "body"; field_args := [];
            field_type := NonNull (Named "String") |};
         {| field_name := "id"; field_args := [];
            field_type := NonNull (Named "ID") |};
         {| field_name := "title"; field_args := [];
            field_type := NonNull (Named "String") |} ] |}.

Definition id_and_title : list (string * Selection) :=
  [("id", Mark true); ("title", Mark true)].

Lemma derive_selected_fields_witness :
  exists r picked,
    derive schema (Shape id_and_title) (NonNull (Named "Post")) = Resolved r
    /\ r = rewrap (NonNull (Named "Post")) (RObject picked)
    /\ (forall f, In f (map fst picked)
                  <-> In f (wanted_fields id_and_title)
                      /\ In f (map field_name (type_fields Post_object)))
    /\ (forall f rt, In (f, rt) picked ->
          exists fd, In fd (type_fields Post_object) /\ field_name fd = f
                     /\ same_nullability (field_type fd) rt = true).
Proof.
  destruct (derive_selected_fields schema (NonNull (Named "Post")) Post_object
              id_and_title eq_refl) as [Hexact Hresolves].
  destruct Hresolves as [r Hr].
  - repeat constructor; simpl; eauto.
  - repeat constructor.
  - exists "id". split; simpl; auto.
  - destruct (Hexact r Hr) as (picked & H1 & H2 & H3).
    exists r, picked. auto.
Defined.

(** The selection [{ id, title }] against [Post], worked out. *)
Example derive_id_and_title :
  derive schema (Shape id_and_title) (NonNull (Named "Post"))
  = Resolved (RNonNull (RObject [("id", RNonNull (RScalar "ID"));
                                 ("title", RNonNull (RScalar "String"))])).
Proof. reflexivity. Qed.

(** The tables of [const.ts] are the ones the schema gives. *)
Example ReturnTypes_of_schema : return_types_of schema = ReturnTypes.
Proof. vm_compute. reflexivity. Qed.

(** C8: a selection that asks for no field of an object type (in
    particular one that asks for zero fields) is refused, and no selection
    at all is ever given an object type without fields. *)
Theorem zero_fields_rejected (s : GraphQLSchema) (t : TypeRef)
  (obj : ObjectType) (fields : list (string * Selection)) :
  find_type s (base_name t) = Some obj ->
  (forall f, In f (wanted_fields fields) ->
             ~ In f (map field_name (type_fields obj))) ->
  derive s (Shape fields) t = Rejected GenerationError
  /\ (forall sel r, derive s sel t = Resolved r -> empty_object r = false).
Proof.
  intros Hty Hnone. split.
  - simpl. rewrite Hty.
    rewrite (pick_with_nothing_wanted s (derive s) _ obj fields Hty Hnone).
    reflexivity.
  - intros sel r. apply derive_not_empty_object.
Qed.

Lemma zero_fields_rejected_witness :
  derive schema (Shape []) (NonNull (Named "Post")) = Rejected GenerationError
  /\ (forall sel r, derive schema sel (NonNull (Named "Post")) = Resolved r ->
                    empty_object r = false).
Proof.
  apply (zero_fields_rejected schema (NonNull (Named "Post")) Post_object []).
  - reflexivity.
  - intros f [].
Defined.

End TypedRequests.

(** ** The transport wrapper *)

Section TransportContract.
Import Zeus Transport.

(** The one request the wrapper sends for an operation. *)
Definition request_for (Zeus_text : OperationType -> Selection -> string)
  (operation : OperationType) (o : Selection) : Request :=
  {| url := endpoint;
     init :=
       {| method := "POST";
          headers := [("Content-Type", "application/json")];
          body := stringify
                    (JObj [("query", JStr (Zeus_text operation o));
                           ("variables", JObj (arguments_of o))]) |} |}.

(** What the caller gets for a reply: a failed call or an unreadable body
    rejects with the same error; any parsed body gives its [data]. *)
Definition delivered (reply : Promise Response) : Promise Json :=
  match reply with
  | Rejected e => Rejected e
  | Resolved response =>
      match json response with
      | Rejected e => Rejected e
      | Resolved parsed => destructure_data parsed
      end
  end.

Lemma thunder_spec Zeus_text respond operation o sent :
  thunder Zeus_text (fetch_from respond) operation o sent
  = (delivered (respond (request_for Zeus_text operation o)),
     sent ++ [request_for Zeus_text operation o]).
Proof.
  unfold thunder, Thunder, bind, lift, fetch_from, delivered.
  fold (request_for Zeus_text operation o).
  destruct (respond (request_for Zeus_text operation o)) as [response|e];
    [| reflexivity].
  destruct (json response) as [parsed|e]; reflexivity.
Qed.

(** A reply counts as a success when the call came back with a 2xx
    status and a JSON object that has [data] and no [errors]. *)
Definition success (reply : Promise Response) : bool :=
  match reply with
  | Resolved response =>
      (200 <=? status response) && (status response <? 300)
      && match json response with
         | Resolved (JObj props) =>
             match get_prop "errors" props, get_prop "data" props with
             | JUndefined, (JUndefined | JNull) => false
             | JUndefined, _ => true
             | _, _ => false
             end
         | _ => false
         end
  | Rejected _ => false
  end.

(** A GraphQL error payload, sent with status 200 as Yoga does for
    execution errors. *)
Definition error_reply : Promise Response :=
  Resolved {| status := 200;
              json := Resolved
                (JObj [("errors",
                        JArr [JObj [("message", JStr "Unexpected error.")]])]) |}.

Definition sample_text (operation : OperationType) (o : Selection) : string :=
  Ops operation.

(** C9 as stated fails: an error payload is a non-success, and [mutate]
    resolves on it (with [undefined]) instead of failing. *)
Lemma error_payload_is_swallowed :
  ~ (forall Zeus_text reply mutation sent,
        success reply = false ->
        is_resolved
          (fst (mutate Zeus_text (fetch_from (fun _ => reply)) mutation sent))
        = false).
Proof.
  intros H.
  specialize (H sample_text error_reply (createPost_mutation "A" "B") []).
  vm_compute in H. specialize (H eq_refl). discriminate.
Qed.

(** C9 (as amended): [query], over the [fetch] it is given, and [mutate],
    over the ambient one, each send exactly one request: a POST to the
    fixed endpoint whose body is the JSON text of the operation text and
    the variables. The caller gets the [data] property of the parsed
    reply. A failed call and an unreadable body reject with their error,
    untouched; the status and an [errors] property are never looked at,
    so a reply that carries only errors does not fail: the call resolves
    with [undefined]. *)
Theorem wrapper_contract :
  (forall Zeus_text respond o sent,
      query Zeus_text o (fetch_from respond) sent
      = (delivered (respond (request_for Zeus_text query_op o)),
         sent ++ [request_for Zeus_text query_op o]))
  /\ (forall Zeus_text respond o sent,
        mutate Zeus_text (fetch_from respond) o sent
        = (delivered (respond (request_for Zeus_text mutation_op o)),
           sent ++ [request_for Zeus_text mutation_op o]))
  /\ (forall code props,
        delivered (Resolved {| status := code; json := Resolved (JObj props) |})
        = Resolved (get_prop "data" props))
  /\ (forall e, delivered (Rejected e) = Rejected e)
  /\ (forall code e,
        delivered (Resolved {| status := code; json := Rejected e |})
        = Rejected e)
  /\ delivered error_reply = Resolved JUndefined.
Proof.
  split; [| split; [| split; [| split; [| split]]]].
  - intros. apply thunder_spec.
  - intros. apply thunder_spec.
  - reflexivity.
  - reflexivity.
  - reflexivity.
  - reflexivity.
Qed.

(** The reply of the round trip: [{"data":{"createPost":{"id":"1"}}}]. *)
Definition created_reply : Promise Response :=
  Resolved {| status := 200;
              json := Resolved
                (JObj [("data",
                        JObj [("createPost", JObj [("id", JStr "1")])])]) |}.

(** C2 as stated fails: the caller does not get the bare post [{id: "1"}]. *)
Lemma mutate_does_not_unwrap_root_field :
  ~ (forall Zeus_text sent,
        fst (mutate Zeus_text (fetch_from (fun _ => created_reply))
               (createPost_mutation "A" "B") sent)
        = Resolved (JObj [("id", JStr "1")])).
Proof. intros H. specialize (H sample_text []). vm_compute in H. discriminate. Qed.

(** Text of a JSON string without characters to escape. *)
Definition quoted (s : string) : string :=
  String dquote s +:+ String dquote EmptyString.

(** C2 (as amended): the mutation [createPost] with arguments title "A",
    body "B" and selection [{ id }] sends one POST whose body is the JSON
    text of [{query, variables}], the variables being the object with
    [body] = "B" and [title] = "A"; on the reply
    [{"data":{"createPost":{"id":"1"}}}] the caller gets the whole [data]
    object, [{createPost: {id: "1"}}], under the name of the root field. *)
Theorem mutate_round_trip :
  forall Zeus_text sent,
    mutate Zeus_text (fetch_from (fun _ => created_reply))
      (createPost_mutation "A" "B") sent
    = (Resolved (JObj [("createPost", JObj [("id", JStr "1")])]),
       sent ++
       [ {| url := "http://localhost:4000/graphql";
            init :=
              {| method := "POST";
                 headers := [("Content-Type", "application/json")];
                 body :=
                   Some ("{" +:+ quoted "query" +:+ ":"
                         +:+ quote (Zeus_text mutation_op
                                      (createPost_mutation "A" "B"))
                         +:+ "," +:+ quoted "variables" +:+ ":"
                         +:+ "{" +:+ quoted "body" +:+ ":" +:+ quoted "B"
                         +:+ "," +:+ quoted "title" +:+ ":" +:+ quoted "A"
                         +:+ "}" +:+ "}") |} |} ]).
Proof.
  intros Zeus_text sent. unfold mutate. rewrite thunder_spec.
  unfold request_for, endpoint. simpl stringify. unfold quoted, quote.
  simpl. rewrite <- !string_app_assoc. reflexivity.
Qed.

End TransportContract.

(** ** Where the artifact goes *)

Section TargetPath.
Import Schema Fs Publisher.

(** Characters that mean nothing to the URL parser or to
    [decodeURIComponent]. *)
Definition plain_char (c : ascii) : bool :=
  negb (is_slash c || Ascii.eqb c "?" || Ascii.eqb c "#" || Ascii.eqb c "%"
        || is_tab_or_newline c || (nat_of_ascii c =? 0)%nat).

Fixpoint plain_string (s : string) : bool :=
  match s with
  | EmptyString => true
  | String c s' => plain_char c && plain_string s'
  end.

(** A directory name made of plain characters. *)
Definition plain_segment (seg : string) : bool :=
  plain_string seg && negb (String.eqb seg "")
  && negb (is_single_dot seg) && negb (is_double_dot seg).

Lemma plain_char_inv c :
  plain_char c = true ->
  is_slash c = false /\ Ascii.eqb c "?" = false /\ Ascii.eqb c "#" = false
  /\ Ascii.eqb c "%" = false /\ is_tab_or_newline c = false
  /\ (nat_of_ascii c =? 0)%nat = false.
Proof.
  unfold plain_char. rewrite negb_true_iff, !orb_false_iff. tauto.
Qed.

Lemma plain_segment_inv seg :
  plain_segment seg = true ->
  plain_string seg = true /\ seg <> ""
  /\ is_single_dot seg = false /\ is_double_dot seg = false.
Proof.
  unfold plain_segment. rewrite !andb_true_iff, !negb_true_iff.
  intros [[[H1 H2] H3] H4]. repeat split; try assumption.
  apply String.eqb_neq, H2.
Qed.

(** *** The URL parser on plain input *)

Lemma remove_tab_newline_app a b :
  remove_tab_newline (a +:+ b) = remove_tab_newline a +:+ remove_tab_newline b.
Proof.
  induction a as [|c a IH]; [reflexivity |].
  rewrite string_app_cons. simpl. rewrite IH.
  destruct (is_tab_or_newline c); reflexivity.
Qed.

Lemma remove_tab_newline_plain s :
  plain_string s = true -> remove_tab_newline s = s.
Proof.
  induction s as [|c s IH]; [reflexivity |]. simpl.
  rewrite andb_true_iff. intros [Hc Hs].
  destruct (plain_char_inv c Hc) as (_ & _ & _ & _ & -> & _).
  rewrite IH by exact Hs. reflexivity.
Qed.

Lemma remove_tab_newline_absolute segs :
  Forall (fun seg => plain_segment seg = true) segs ->
  remove_tab_newline (absolute segs) = absolute segs.
Proof.
  induction 1 as [|seg segs Hseg _ IH]; [reflexivity |].
  simpl absolute. rewrite !remove_tab_newline_app, IH.
  rewrite (remove_tab_newline_plain seg)
    by apply (plain_segment_inv seg Hseg).
  reflexivity.
Qed.

Lemma substring_all s : String.substring 0 (String.length s) s = s.
Proof. induction s as [|c s IH]; simpl; [reflexivity | rewrite IH; reflexivity]. Qed.

Lemma parse_file_url_template rest :
  remove_tab_newline rest = rest ->
  parse_file_url ("file:///" +:+ rest) = Resolved (path_state [] "" rest).
Proof.
  intros Hrest. unfold parse_file_url.
  rewrite remove_tab_newline_app, Hrest.
  change (remove_tab_newline "file:///") with "file:///".
  assert (Hprefix : String.prefix "file:///" ("file:///" +:+ rest) = true)
    by (apply String.prefix_correct; destruct rest; reflexivity).
  rewrite Hprefix. f_equal. f_equal.
  change (String.length ("file:///" +:+ rest)) with (8 + String.length rest)%nat.
  replace (8 + String.length rest - 8)%nat with (String.length rest) by lia.
  change (String.substring 8 (String.length rest) ("file:///" +:+ rest))
    with (String.substring 0 (String.length rest) rest).
  apply substring_all.
Qed.

Lemma path_state_plain path buffer seg rest :
  plain_string seg = true ->
  path_state path buffer (seg +:+ rest) = path_state path (buffer +:+ seg) rest.
Proof.
  revert buffer. induction seg as [|c seg IH]; intros buffer H.
  - rewrite string_app_empty_r. reflexivity.
  - simpl in H. apply andb_true_iff in H as [Hc Hseg].
    destruct (plain_char_inv c Hc) as (H1 & H2 & H3 & _).
    rewrite string_app_cons. simpl. rewrite H1, H2, H3.
    rewrite IH by exact Hseg. rewrite string_app_assoc. reflexivity.
Qed.

Lemma end_segment_plain path seg :
  path <> [] -> plain_segment seg = true ->
  end_segment path seg true = path ++ [seg].
Proof.
  intros Hpath Hseg.
  destruct (plain_segment_inv seg Hseg) as (_ & _ & H1 & H2).
  unfold end_segment. rewrite H1, H2.
  destruct path; [contradiction | reflexivity].
Qed.

Lemma normalize_drive_empty path : normalize_drive path "" = "".
Proof. destruct path; reflexivity. Qed.

(** After [file:///], the path [/s1/.../sn/] parses to the segments
    with an empty one on each side. *)
Lemma path_state_absolute segs path buffer :
  Forall (fun seg => plain_segment seg = true) segs ->
  end_segment path buffer true = path ++ [buffer] ->
  path_state path buffer (absolute segs +:+ "/")
  = {| url_path := path ++ [buffer] ++ segs ++ [""];
       url_query := None; url_fragment := None |}.
Proof.
  intros Hsegs. revert path buffer.
  induction Hsegs as [|seg segs Hseg _ IH]; intros path buffer Hend.
  - simpl. rewrite Hend. unfold end_segment. simpl.
    rewrite normalize_drive_empty, <- app_assoc. reflexivity.
  - simpl absolute. rewrite !string_app_assoc.
    change (path_state path buffer ("/" +:+ seg +:+ absolute segs +:+ "/"))
      with (path_state (end_segment path buffer true) ""
              (seg +:+ absolute segs +:+ "/")).
    rewrite Hend.
    rewrite path_state_plain by apply (plain_segment_inv seg Hseg).
    change ("" +:+ seg) with seg.
    rewrite IH.
    + rewrite <- !app_assoc. reflexivity.
    + apply end_segment_plain; [| exact Hseg].
      destruct path; discriminate.
Qed.

Lemma shorten_snoc (a : string) (l : list string) (x : string) :
  shorten (a :: l ++ [x]) = a :: l.
Proof.
  unfold shorten. destruct l as [|b l]; [reflexivity |].
  change (removelast ((a :: b :: l) ++ [x]) = a :: b :: l).
  apply removelast_last.
Qed.

Lemma path_state_reference (path : list string) :
  path <> [] ->
  path_state path "" "build/schema.graphql"
  = {| url_path := path ++ ["build"; "schema.graphql"];
       url_query := None; url_fragment := None |}.
Proof.
  intros H. destruct path as [|p path]; [contradiction |].
  cbv -[app]. rewrite <- app_assoc. reflexivity.
Qed.

Lemma new_URL_plain segs :
  Forall (fun seg => plain_segment seg = true) segs ->
  new_URL "build/schema.graphql" (cwd_url (absolute segs))
  = Resolved {| url_path := "" :: segs ++ ["build"; "schema.graphql"];
                url_query := None; url_fragment := None |}.
Proof.
  intros Hsegs. unfold new_URL, cwd_url.
  rewrite parse_file_url_template.
  - rewrite path_state_absolute by (exact Hsegs || reflexivity).
    unfold then_, url_path.
    change (remove_tab_newline "build/schema.graphql")
      with "build/schema.graphql".
    change (starts_with_drive_letter "build/schema.graphql") with false.
    cbv iota zeta. f_equal.
    change ([] ++ [""] ++ segs ++ [""]) with ("" :: segs ++ [""]).
    rewrite shorten_snoc. rewrite path_state_reference by discriminate.
    reflexivity.
  - rewrite remove_tab_newline_app, remove_tab_newline_absolute by exact Hsegs.
    reflexivity.
Qed.

(** *** [fileURLToPath] on a path without escapes *)

Fixpoint no_percent (s : string) : bool :=
  match s with
  | EmptyString => true
  | String c s' => negb (Ascii.eqb c "%") && no_percent s'
  end.

Lemma no_percent_app a b :
  no_percent (a +:+ b) = no_percent a && no_percent b.
Proof.
  induction a as [|c a IH]; [reflexivity |].
  rewrite string_app_cons. simpl. rewrite IH, andb_assoc. reflexivity.
Qed.

Lemma plain_no_percent s : plain_string s = true -> no_percent s = true.
Proof.
  induction s as [|c s IH]; [reflexivity |]. simpl.
  rewrite andb_true_iff. intros [Hc Hs].
  destruct (plain_char_inv c Hc) as (_ & _ & _ & -> & _).
  rewrite IH by exact Hs. reflexivity.
Qed.

Lemma no_percent_absolute segs :
  Forall (fun seg => no_percent seg = true) segs ->
  no_percent (absolute segs) = true.
Proof.
  induction 1 as [|seg segs Hseg _ IH]; [reflexivity |].
  simpl absolute. rewrite !no_percent_app, Hseg, IH. reflexivity.
Qed.

Lemma has_encoded_slash_no_percent s :
  no_percent s = true -> has_encoded_slash s = false.
Proof.
  induction s as [|c s IH]; [reflexivity |]. simpl.
  rewrite andb_true_iff, negb_true_iff. intros [-> Hs].
  rewrite IH by exact Hs. reflexivity.
Qed.

Lemma decodeURIComponent_no_percent s :
  no_percent s = true -> decodeURIComponent s = Resolved s.
Proof.
  unfold decodeURIComponent.
  induction s as [|c s IH]; [reflexivity |]. simpl.
  rewrite andb_true_iff, negb_true_iff. intros [-> Hs].
  rewrite IH by exact Hs. reflexivity.
Qed.

Lemma fileURLToPath_no_percent u :
  no_percent (pathname u) = true -> fileURLToPath u = Resolved (pathname u).
Proof.
  intros H. unfold fileURLToPath.
  rewrite has_encoded_slash_no_percent by exact H.
  apply decodeURIComponent_no_percent, H.
Qed.

(** *** Path components *)

Lemma components_from_plain current seg rest :
  plain_string seg = true ->
  components_from current (seg +:+ rest)
  = components_from (current +:+ seg) rest.
Proof.
  revert current. induction seg as [|c seg IH]; intros current H.
  - rewrite string_app_empty_r. reflexivity.
  - simpl in H. apply andb_true_iff in H as [Hc Hseg].
    destruct (plain_char_inv c Hc) as (H1 & _).
    unfold is_slash in H1. apply orb_false_iff in H1 as [H1 _].
    rewrite string_app_cons. simpl. rewrite H1.
    rewrite IH by exact Hseg. rewrite string_app_assoc. reflexivity.
Qed.

Lemma components_from_absolute segs current :
  Forall (fun seg => plain_segment seg = true) segs ->
  current <> "" ->
  components_from current (absolute segs) = current :: segs.
Proof.
  intros Hsegs. revert current.
  induction Hsegs as [|seg segs Hseg _ IH]; intros current Hcur.
  - simpl. apply String.eqb_neq in Hcur. rewrite Hcur. reflexivity.
  - destruct (plain_segment_inv seg Hseg) as (Hplain & Hne & _).
    simpl absolute.
    change (components_from current ("/" +:+ seg +:+ absolute segs))
      with ((if String.eqb current "" then [] else [current])
              ++ components_from "" (seg +:+ absolute segs)).
    apply String.eqb_neq in Hcur. rewrite Hcur.
    rewrite components_from_plain by exact Hplain.
    change ("" +:+ seg) with seg. rewrite IH by exact Hne. reflexivity.
Qed.

Lemma components_absolute segs :
  Forall (fun seg => plain_segment seg = true) segs ->
  components ("/" +:+ absolute segs) = segs.
Proof.
  intros Hsegs. destruct Hsegs as [|seg segs Hseg Hsegs]; [reflexivity |].
  destruct (plain_segment_inv seg Hseg) as (Hplain & Hne & _).
  unfold components. simpl absolute.
  change (components_from "" ("/" +:+ "/" +:+ seg +:+ absolute segs))
    with (components_from "" (seg +:+ absolute segs)).
  rewrite components_from_plain by exact Hplain.
  apply components_from_absolute; assumption.
Qed.

Lemma plain_segments_app segs more :
  Forall (fun seg => plain_segment seg = true) segs ->
  Forall (fun seg => plain_segment seg = true) more ->
  Forall (fun seg => plain_segment seg = true) (segs ++ more).
Proof. intros. apply Forall_app. split; assumption. Qed.

Lemma plain_segments_no_percent segs :
  Forall (fun seg => plain_segment seg = true) segs ->
  Forall (fun seg => no_percent seg = true) segs.
Proof.
  intros Hsegs. eapply Forall_impl; [exact Hsegs |]. intros seg H.
  apply plain_no_percent, (plain_segment_inv seg H).
Qed.

(** The working directory [/s1/.../sn] with plain names. *)
Definition directory (segs : list string) : string := absolute segs.

Definition artifact_of (segs : list string) : list string :=
  segs ++ ["build"; "schema.graphql"].

(** For a working directory with plain names the artifact is
    [build/schema.graphql] below it. *)
Lemma target_plain segs :
  Forall (fun seg => plain_segment seg = true) segs ->
  target (directory segs) = Resolved ("/" +:+ absolute (artifact_of segs))
  /\ components ("/" +:+ absolute (artifact_of segs)) = artifact_of segs.
Proof.
  intros Hsegs.
  assert (Hall : Forall (fun seg => plain_segment seg = true) (artifact_of segs)).
  { apply plain_segments_app; [exact Hsegs |]. repeat constructor. }
  split; [| apply components_absolute, Hall].
  unfold target, directory. rewrite new_URL_plain by exact Hsegs.
  unfold then_. apply fileURLToPath_no_percent.
  unfold pathname, url_path.
  change (absolute ("" :: segs ++ ["build"; "schema.graphql"]))
    with ("/" +:+ absolute (artifact_of segs)).
  rewrite no_percent_app.
  rewrite no_percent_absolute by apply plain_segments_no_percent, Hall.
  reflexivity.
Qed.

(** X13: different working directories with plain names have different
    artifacts. *)
Lemma target_plain_injective segs segs' :
  Forall (fun seg => plain_segment seg = true) segs ->
  Forall (fun seg => plain_segment seg = true) segs' ->
  directory segs <> directory segs' ->
  target (directory segs) <> target (directory segs').
Proof.
  intros H H' Hne Heq. apply Hne.
  destruct (target_plain segs H) as [E C].
  destruct (target_plain segs' H') as [E' C'].
  rewrite E, E' in Heq.
  assert (Hs : "/" +:+ absolute (artifact_of segs)
               = "/" +:+ absolute (artifact_of segs')) by congruence.
  rewrite Hs, C' in C. symmetry in C.
  apply app_inv_tail in C. rewrite C. reflexivity.
Qed.

(** C10: the target is resolved against the working directory, but the
    directory is pasted into a URL unescaped: everything after a [#] in
    it is read as a fragment, so two projects under a directory named
    [C#] get one and the same artifact path, outside both of them. *)
Theorem target_collision_after_hash :
  "/home/dev/C#/typed-board" <> "/home/dev/C#/guestbook"
  /\ target "/home/dev/C#/typed-board" = Resolved "//home/dev/build/schema.graphql"
  /\ target "/home/dev/C#/guestbook" = Resolved "//home/dev/build/schema.graphql"
  /\ components "//home/dev/build/schema.graphql"
     = ["home"; "dev"; "build"; "schema.graphql"]
  /\ target "/home/dev/typed-board"
     = Resolved "//home/dev/typed-board/build/schema.graphql".
Proof. split; [discriminate | repeat split]. Qed.

End TargetPath.

(** ** Missing directories *)

Section MissingDirectories.
Import Schema Fs Publisher.

Lemma has_null_byte_app a b :
  has_null_byte (a +:+ b) = has_null_byte a || has_null_byte b.
Proof.
  induction a as [|c a IH]; [reflexivity |].
  rewrite string_app_cons. simpl. rewrite IH, orb_assoc. reflexivity.
Qed.

Lemma plain_no_null_byte s : plain_string s = true -> has_null_byte s = false.
Proof.
  induction s as [|c s IH]; [reflexivity |]. simpl.
  rewrite andb_true_iff. intros [Hc Hs].
  destruct (plain_char_inv c Hc) as (_ & _ & _ & _ & _ & ->).
  rewrite IH by exact Hs. reflexivity.
Qed.

Lemma absolute_no_null_byte segs :
  Forall (fun seg => plain_segment seg = true) segs ->
  has_null_byte (absolute segs) = false.
Proof.
  induction 1 as [|seg segs Hseg _ IH]; [reflexivity |].
  simpl absolute. rewrite !has_null_byte_app, IH.
  rewrite (plain_no_null_byte seg) by apply (plain_segment_inv seg Hseg).
  reflexivity.
Qed.

Lemma walk_app (fs : FileSystem) (prefix a b : list string) :
  walk fs prefix (a ++ b)
  = match walk fs prefix a with
    | Resolved _ => walk fs (prefix ++ a) b
    | Rejected e => Rejected e
    end.
Proof.
  revert prefix. induction a as [|d a IH]; intros prefix; simpl.
  - rewrite app_nil_r. reflexivity.
  - destruct (fs !! (prefix ++ [d])) as [[|content]|]; try reflexivity.
    rewrite IH, <- app_assoc. reflexivity.
Qed.

Lemma removelast_artifact segs :
  removelast (artifact_of segs) = segs ++ ["build"].
Proof.
  unfold artifact_of.
  change (segs ++ ["build"; "schema.graphql"])
    with (segs ++ ["build"] ++ ["schema.graphql"]).
  rewrite app_assoc. apply removelast_last.
Qed.

Lemma artifact_not_root segs : artifact_of segs <> [].
Proof. unfold artifact_of. destruct segs; discriminate. Qed.

(** [writeFile] at the artifact of a plain working directory. *)
Lemma writeFile_artifact (s : GraphQLSchema) (segs : list string)
  (fs : FileSystem) :
  Forall (fun seg => plain_segment seg = true) segs ->
  writeFile (new_URL "build/schema.graphql" (cwd_url (directory segs)))
    (printSchema s) fs
  = match walk fs [] (segs ++ ["build"]) with
    | Rejected e => (Rejected e, fs)
    | Resolved _ =>
        match fs !! artifact_of segs with
        | Some Dir => (Rejected EISDIR, fs)
        | _ => (Resolved tt, <[artifact_of segs := File (printSchema s)]> fs)
        end
    end.
Proof.
  intros Hsegs. destruct (target_plain segs Hsegs) as [Htarget Hcomps].
  unfold target in Htarget. unfold writeFile, bind, lift.
  destruct (new_URL "build/schema.graphql" (cwd_url (directory segs)))
    as [u|e]; [| discriminate].
  simpl in Htarget. rewrite Htarget. unfold writeFile_path.
  rewrite has_null_byte_app, absolute_no_null_byte
    by (apply plain_segments_app; [exact Hsegs | repeat constructor]).
  simpl orb. cbv iota. rewrite Hcomps.
  rewrite <- removelast_artifact.
  destruct (artifact_of segs) eqn:E; [| reflexivity].
  exfalso. exact (artifact_not_root segs E).
Qed.

(** The revision without [mkdir]: in a working directory that exists and
    has no [build/] yet, publishing fails and writes nothing. *)
Lemma writeSchema_needs_build_directory (s : GraphQLSchema)
  (segs : list string) (fs : FileSystem) :
  Forall (fun seg => plain_segment seg = true) segs ->
  walk fs [] segs = Resolved tt ->
  fs !! (segs ++ ["build"]) = None ->
  writeSchema_of s (directory segs) fs = (Rejected ENOENT, fs).
Proof.
  intros Hsegs Hcwd Hbuild. unfold writeSchema_of.
  rewrite writeFile_artifact by exact Hsegs.
  rewrite walk_app, Hcwd. simpl. rewrite Hbuild. reflexivity.
Qed.

Definition fresh_checkout : FileSystem :=
  {[ ["srv"] := Dir; ["srv"; "app"] := Dir ]}.

(** C5: in a checkout where [build/] does not exist yet, [writeSchema] of
    [packages/api/src/schema.ts] creates no directory: it fails with
    ENOENT and leaves the file system as it was. The revision that calls
    [mkdir] first succeeds on the same input. *)
Theorem writeSchema_without_build_directory :
  writeSchema "/srv/app" fresh_checkout = (Rejected ENOENT, fresh_checkout)
  /\ fst (writeSchema_mkdir "/srv/app" fresh_checkout) = Resolved tt
  /\ snd (writeSchema_mkdir "/srv/app" fresh_checkout)
       !! ["srv"; "app"; "build"; "schema.graphql"]
     = Some (File (printSchema schema)).
Proof. vm_compute. repeat split. Qed.

Lemma build_not_artifact_early segs : segs ++ ["build"] <> artifact_of segs.
Proof.
  unfold artifact_of. intros E. apply (f_equal List.length) in E.
  rewrite !length_app in E. simpl in E. lia.
Qed.

(** *** The revision that makes the directory *)

(** No file sits where a directory of the path has to be. *)
Fixpoint unobstructed (fs : FileSystem) (prefix comps : list string) : bool :=
  match comps with
  | [] => true
  | d :: rest =>
      match fs !! (prefix ++ [d]) with
      | Some (File _) => false
      | _ => unobstructed fs (prefix ++ [d]) rest
      end
  end.

Lemma unobstructed_insert_above (fs : FileSystem) (k : list string) (v : Node)
  (comps prefix : list string) :
  (List.length k <= List.length prefix)%nat ->
  unobstructed (<[k := v]> fs) prefix comps = unobstructed fs prefix comps.
Proof.
  revert prefix. induction comps as [|d comps IH]; intros prefix Hlen; simpl.
  - reflexivity.
  - assert (Hne : k <> prefix ++ [d]).
    { intros ->. rewrite length_app in Hlen. simpl in Hlen. lia. }
    rewrite lookup_insert_ne by exact Hne.
    rewrite IH by (rewrite length_app; simpl; lia). reflexivity.
Qed.

Lemma mkdir_from_spec (slash : bool) (comps prefix : list string)
  (fs : FileSystem) :
  unobstructed fs prefix comps = true ->
  exists fs' : FileSystem,
    mkdir_from slash prefix comps fs = (Resolved tt, fs')
    /\ walk fs' prefix comps = Resolved tt
    /\ (forall k : list string,
          (List.length k <= List.length prefix)%nat
          \/ (List.length prefix + List.length comps < List.length k)%nat ->
          fs' !! k = fs !! k).
Proof.
  revert prefix fs. induction comps as [|d comps IH]; intros prefix fs H.
  - exists fs. repeat split.
  - simpl in H. simpl mkdir_from.
    assert (Hlen : List.length (prefix ++ [d]) = S (List.length prefix))
      by (rewrite length_app; simpl; lia).
    destruct (fs !! (prefix ++ [d])) as [[|content]|] eqn:E; [| discriminate |].
    + destruct (IH (prefix ++ [d]) fs H) as (fs' & Hrun & Hwalk & Hframe).
      exists fs'. split; [exact Hrun |]. split.
      * simpl. rewrite Hframe by (left; lia). rewrite E. exact Hwalk.
      * intros k Hk. apply Hframe. rewrite Hlen. simpl in Hk. lia.
    + rewrite <- (unobstructed_insert_above fs (prefix ++ [d]) Dir) in H
        by lia.
      destruct (IH (prefix ++ [d]) _ H) as (fs' & Hrun & Hwalk & Hframe).
      exists fs'. split; [exact Hrun |]. split.
      * simpl. rewrite Hframe by (left; lia).
        rewrite lookup_insert_eq. exact Hwalk.
      * intros k Hk. rewrite Hframe by (rewrite Hlen; simpl in Hk; lia).
        apply lookup_insert_ne. intros <-. simpl in Hk. lia.
Qed.

Lemma absolute_app a b : absolute (a ++ b) = absolute a +:+ absolute b.
Proof.
  induction a as [|seg a IH]; [reflexivity |].
  simpl. rewrite IH, !string_app_assoc. reflexivity.
Qed.

Lemma components_from_absolute_slash segs current :
  Forall (fun seg => plain_segment seg = true) segs ->
  current <> "" ->
  components_from current (absolute segs +:+ "/") = current :: segs.
Proof.
  intros Hsegs. revert current.
  induction Hsegs as [|seg segs Hseg _ IH]; intros current Hcur.
  - simpl. apply String.eqb_neq in Hcur. rewrite Hcur. reflexivity.
  - destruct (plain_segment_inv seg Hseg) as (Hplain & Hne & _).
    simpl absolute. rewrite !string_app_assoc.
    change (components_from current ("/" +:+ seg +:+ absolute segs +:+ "/"))
      with ((if String.eqb current "" then [] else [current])
              ++ components_from "" (seg +:+ absolute segs +:+ "/")).
    apply String.eqb_neq in Hcur. rewrite Hcur.
    rewrite components_from_plain by exact Hplain.
    change ("" +:+ seg) with seg. rewrite IH by exact Hne. reflexivity.
Qed.

Lemma ends_with_slash_app (a : string) : ends_with_slash (a +:+ "/") = true.
Proof.
  induction a as [|c a IH]; [reflexivity |].
  rewrite string_app_cons. simpl.
  destruct (a +:+ "/") eqn:E; [destruct a; discriminate | exact IH].
Qed.

(** [mkdir] at [build/] of a plain working directory. *)
Lemma mkdir_build (segs : list string) (fs : FileSystem) :
  Forall (fun seg => plain_segment seg = true) segs ->
  mkdir_recursive (parse_file_url ("file:///" +:+ directory segs +:+ "/build/")) fs
  = mkdir_from true [] (segs ++ ["build"]) fs.
Proof.
  intros Hsegs.
  assert (Hall : Forall (fun seg => plain_segment seg = true) (segs ++ ["build"])).
  { apply plain_segments_app; [exact Hsegs |]. repeat constructor. }
  assert (Hrest : directory segs +:+ "/build/"
                  = absolute (segs ++ ["build"]) +:+ "/").
  { unfold directory. rewrite absolute_app. simpl.
    rewrite !string_app_assoc. reflexivity. }
  rewrite Hrest. rewrite parse_file_url_template.
  2:{ rewrite remove_tab_newline_app, remove_tab_newline_absolute by exact Hall.
      reflexivity. }
  rewrite path_state_absolute by (exact Hall || reflexivity).
  unfold mkdir_recursive, bind, lift.
  rewrite fileURLToPath_no_percent; unfold pathname, url_path;
    change ([] ++ [""] ++ (segs ++ ["build"]) ++ [""])
      with ("" :: (segs ++ ["build"]) ++ [""]);
    change (absolute ("" :: (segs ++ ["build"]) ++ [""]))
      with ("/" +:+ absolute ((segs ++ ["build"]) ++ [""]));
    rewrite (absolute_app (segs ++ ["build"]) [""]);
    change (absolute [""]) with "/".
  2:{ rewrite !no_percent_app.
      rewrite no_percent_absolute by apply plain_segments_no_percent, Hall.
      reflexivity. }
  unfold mkdir_recursive_path.
  rewrite !has_null_byte_app, absolute_no_null_byte by exact Hall.
  simpl orb. cbv iota.
  rewrite <- (string_app_assoc "/" (absolute (segs ++ ["build"])) "/").
  rewrite ends_with_slash_app.
  rewrite (string_app_assoc "/" (absolute (segs ++ ["build"])) "/").
  f_equal.
  destruct Hall as [|seg rest Hseg Hrest'].
  - reflexivity.
  - destruct (plain_segment_inv seg Hseg) as (Hplain & Hne & _).
    unfold components. simpl absolute. rewrite !string_app_assoc.
    change (components_from "" ("/" +:+ "/" +:+ seg +:+ absolute rest +:+ "/"))
      with (components_from "" (seg +:+ absolute rest +:+ "/")).
    rewrite components_from_plain by exact Hplain.
    apply components_from_absolute_slash; assumption.
Qed.

Lemma unobstructed_existing (fs : FileSystem) (dirs prefix : list string)
  (last : string) :
  walk fs prefix dirs = Resolved tt ->
  (forall content, fs !! (prefix ++ dirs ++ [last]) <> Some (File content)) ->
  unobstructed fs prefix (dirs ++ [last]) = true.
Proof.
  revert prefix. induction dirs as [|d dirs IH]; intros prefix Hwalk Hlast.
  - simpl. simpl in Hlast.
    destruct (fs !! (prefix ++ [last])) as [[|content]|] eqn:E;
      [reflexivity | | reflexivity].
    exfalso. exact (Hlast content eq_refl).
  - simpl. simpl in Hwalk.
    destruct (fs !! (prefix ++ [d])) as [[|content]|];
      [| discriminate | discriminate].
    apply IH; [exact Hwalk |].
    intros content. rewrite <- app_assoc. apply Hlast.
Qed.

(** X10: with [mkdir] first, publishing from a working directory with
    plain names that exists succeeds whether or not [build/] is there, as
    long as [build] is not a file and no directory sits at the artifact:
    afterwards [build/] is a directory and the artifact holds the printed
    schema. *)
Lemma writeSchema_mkdir_creates_directories (s : GraphQLSchema)
  (segs : list string) (fs : FileSystem) :
  Forall (fun seg => plain_segment seg = true) segs ->
  walk fs [] segs = Resolved tt ->
  (forall content, fs !! (segs ++ ["build"]) <> Some (File content)) ->
  fs !! artifact_of segs <> Some Dir ->
  exists fs' : FileSystem,
    writeSchema_mkdir_of s (directory segs) fs = (Resolved tt, fs')
    /\ fs' !! (segs ++ ["build"]) = Some Dir
    /\ fs' !! artifact_of segs = Some (File (printSchema s)).
Proof.
  intros Hsegs Hcwd Hbuild Hfile.
  assert (Hclear : unobstructed fs [] (segs ++ ["build"]) = true)
    by (apply unobstructed_existing; assumption).
  destruct (mkdir_from_spec true _ [] fs Hclear) as (fs1 & Hrun & Hwalk & Hframe).
  unfold writeSchema_mkdir_of, bind.
  rewrite mkdir_build, Hrun by exact Hsegs.
  rewrite (writeFile_artifact s segs fs1 Hsegs), Hwalk.
  assert (E : fs1 !! artifact_of segs = fs !! artifact_of segs).
  { apply Hframe. right. unfold artifact_of. rewrite !length_app. simpl. lia. }
  assert (Hdir : fs1 !! (segs ++ ["build"]) = Some Dir).
  { rewrite walk_app in Hwalk.
    destruct (walk fs1 [] segs) as [[]|e]; [| discriminate].
    simpl in Hwalk.
    destruct (fs1 !! (segs ++ ["build"])) as [[|content]|];
      [reflexivity | discriminate | discriminate]. }
  rewrite E.
  destruct (fs !! artifact_of segs) as [[|content]|]; [contradiction | |];
    eexists; (split; [reflexivity |]);
    (split; [rewrite lookup_insert_ne by (symmetry; apply build_not_artifact_early);
             exact Hdir
            | apply lookup_insert_eq]).
Qed.

Lemma mkdir_from_existing (slash : bool) (comps prefix : list string)
  (fs : FileSystem) :
  walk fs prefix comps = Resolved tt ->
  mkdir_from slash prefix comps fs = (Resolved tt, fs).
Proof.
  revert prefix. induction comps as [|d comps IH]; intros prefix; simpl.
  - reflexivity.
  - destruct (fs !! (prefix ++ [d])) as [[|content]|]; try discriminate.
    apply IH.
Qed.

(** X11: publishing twice with the revision that makes the directory:
    the second run finds the directories, changes nothing and leaves the
    same artifact. *)
Lemma publish_mkdir_twice_identical (s : GraphQLSchema) (segs : list string)
  (fs fs1 : FileSystem) :
  Forall (fun seg => plain_segment seg = true) segs ->
  writeSchema_mkdir_of s (directory segs) fs = (Resolved tt, fs1) ->
  fs1 !! artifact_of segs = Some (File (printSchema s))
  /\ writeSchema_mkdir_of s (directory segs) fs1 = (Resolved tt, fs1).
Proof.
  intros Hsegs. unfold writeSchema_mkdir_of, bind.
  rewrite !mkdir_build by exact Hsegs.
  destruct (mkdir_from true [] (segs ++ ["build"]) fs) as [[[]|e] fs0] eqn:Hmk;
    [| discriminate].
  rewrite !(writeFile_artifact s segs) by exact Hsegs.
  destruct (walk fs0 [] (segs ++ ["build"])) as [[]|e] eqn:Hwalk;
    [| discriminate].
  assert (Hdeep : (List.length (@nil string) + List.length (segs ++ ["build"])
                   < List.length (artifact_of segs))%nat).
  { unfold artifact_of. rewrite !length_app. simpl. lia. }
  assert (Hagain : forall data,
             walk (<[artifact_of segs := File data]> fs0) [] (segs ++ ["build"])
             = Resolved tt).
  { intros data. rewrite walk_insert_deeper by exact Hdeep. exact Hwalk. }
  destruct (fs0 !! artifact_of segs) as [[|content]|]; try discriminate.
  all: intros [= <-]; split; [apply lookup_insert_eq |].
  all: rewrite (mkdir_from_existing true _ _ _ (Hagain _)).
  all: rewrite (writeFile_artifact s segs) by exact Hsegs.
  all: rewrite Hagain, lookup_insert_eq, insert_insert_eq; reflexivity.
Qed.

End MissingDirectories.

(** ** Who writes the artifact, and when *)

Section ArtifactWriters.
Import Prisma Schema Fs Publisher Server.

Lemma with_files_outcome {A} (m : IO FileSystem A) w :
  fst (with_files m w) = fst (m (files w)).
Proof. unfold with_files. destruct (m (files w)); reflexivity. Qed.

Lemma index_ts_publishes cwd w :
  fst (index_ts cwd w) = fst (writeSchema cwd (files w))
  /\ files (run cwd Startup w) = snd (writeSchema cwd (files w)).
Proof.
  unfold run, index_ts, bind, listen. split.
  - apply (with_files_outcome (writeSchema cwd)
             {| files := files w; database := database w;
                listening := Some 4000 |}).
  - apply (with_files_files (writeSchema cwd)
             {| files := files w; database := database w;
                listening := Some 4000 |}).
Qed.

Lemma post_build_ts_publishes cwd w :
  fst (post_build_ts cwd w) = fst (writeSchema cwd (files w))
  /\ files (run cwd Build w) = snd (writeSchema cwd (files w)).
Proof.
  unfold run, post_build_ts. split;
    [apply with_files_outcome | apply with_files_files].
Qed.

(** A publication that resolved has put the printed schema at the
    target. *)
Lemma writeSchema_resolved_target (s : GraphQLSchema) (cwd : string)
  (fs : FileSystem) :
  fst (writeSchema_of s cwd fs) = Resolved tt ->
  exists p, target cwd = Resolved p
            /\ snd (writeSchema_of s cwd fs) !! components p
               = Some (File (printSchema s)).
Proof.
  unfold writeSchema_of, writeFile, target, bind, lift, then_.
  destruct (new_URL "build/schema.graphql" (cwd_url cwd)) as [u|e];
    [| discriminate].
  destruct (fileURLToPath u) as [p|e]; [| discriminate].
  intros H. exists p. split; [reflexivity |].
  destruct (writeFile_path p (printSchema s) fs) as [r fs1] eqn:E.
  simpl in H. subst r.
  apply (writeFile_path_twice p (printSchema s) fs fs1 E).
Qed.

(** In a checkout that has [build/], publishing resolves and replaces
    the artifact. *)
Lemma writeSchema_in_built_checkout (s : GraphQLSchema) (segs : list string)
  (fs : FileSystem) :
  Forall (fun seg => plain_segment seg = true) segs ->
  walk fs [] (segs ++ ["build"]) = Resolved tt ->
  fs !! artifact_of segs <> Some Dir ->
  writeSchema_of s (directory segs) fs
  = (Resolved tt, <[artifact_of segs := File (printSchema s)]> fs).
Proof.
  intros Hsegs Hwalk Hfile. unfold writeSchema_of.
  rewrite writeFile_artifact by exact Hsegs. rewrite Hwalk.
  destruct (fs !! artifact_of segs) as [[|content]|];
    [contradiction | reflexivity | reflexivity].
Qed.

(** C7 (as amended): handling a request never writes the artifact. The
    build step ([post-build.ts]) writes it, and so does every start of
    the server ([index.ts] awaits [writeSchema()] after it starts
    listening): whenever either resolves, the artifact holds the printed
    schema, and in a checkout that has [build/] both do resolve and
    replace whatever the artifact held. *)
Theorem artifact_written_at_build_and_startup :
  (forall cwd op w p,
      target cwd = Resolved p ->
      files (run cwd (Request op) w) !! components p
      = files w !! components p)
  /\ (forall cwd w,
        fst (index_ts cwd w) = Resolved tt ->
        exists p, target cwd = Resolved p
                  /\ files (run cwd Startup w) !! components p
                     = Some (File (printSchema schema)))
  /\ (forall cwd w,
        fst (post_build_ts cwd w) = Resolved tt ->
        exists p, target cwd = Resolved p
                  /\ files (run cwd Build w) !! components p
                     = Some (File (printSchema schema)))
  /\ (forall segs w,
        Forall (fun seg => plain_segment seg = true) segs ->
        walk (files w) [] (segs ++ ["build"]) = Resolved tt ->
        files w !! artifact_of segs <> Some Dir ->
        fst (index_ts (directory segs) w) = Resolved tt
        /\ files (run (directory segs) Startup w)
           = <[artifact_of segs := File (printSchema schema)]> (files w)
        /\ fst (post_build_ts (directory segs) w) = Resolved tt
        /\ files (run (directory segs) Build w)
           = <[artifact_of segs := File (printSchema schema)]> (files w)).
Proof.
  split; [| split; [| split]].
  - intros cwd op w p _. unfold run. rewrite handle_keeps_files. reflexivity.
  - intros cwd w H. destruct (index_ts_publishes cwd w) as [Hfst Hfiles].
    rewrite Hfst in H. rewrite Hfiles.
    apply (writeSchema_resolved_target schema cwd (files w) H).
  - intros cwd w H. destruct (post_build_ts_publishes cwd w) as [Hfst Hfiles].
    rewrite Hfst in H. rewrite Hfiles.
    apply (writeSchema_resolved_target schema cwd (files w) H).
  - intros segs w Hsegs Hwalk Hfile.
    destruct (index_ts_publishes (directory segs) w) as [H1 H2].
    destruct (post_build_ts_publishes (directory segs) w) as [H3 H4].
    rewrite H1, H2, H3, H4. unfold writeSchema.
    rewrite (writeSchema_in_built_checkout schema segs (files w) Hsegs Hwalk Hfile).
    repeat split.
Qed.

End ArtifactWriters.

(** * Further properties of the code *)

(** ** The resolvers together *)

Section Resolvers.
Import Prisma Schema.

#[local] Instance by_id_desc_total' : Total by_id_desc.
Proof. intros a b. unfold by_id_desc, order_rel, flip; simpl. lia. Qed.

#[local] Instance by_id_desc_trans' : Transitive by_id_desc.
Proof. intros a b c. unfold by_id_desc, order_rel, flip; simpl. lia. Qed.

Lemma resolve_createPost_rows query title body db :
  rows (snd (resolve_createPost query title body db))
  = rows db ++ [fst (resolve_createPost query title body db)].
Proof. reflexivity. Qed.

(** X1: on a table whose identifiers were handed out by the counter, the
    post that [createPost] returns is the first one [posts] returns right
    after, followed by what [posts] returned before. *)
Theorem posts_after_createPost (query query' : PothosQuery)
  (title body : string) (db : PrismaClient) :
  autoincremented db ->
  resolve_posts query' (snd (resolve_createPost query title body db))
  = fst (resolve_createPost query title body db) :: resolve_posts query' db.
Proof.
  intros H.
  rewrite (resolve_posts_autoincremented query' db H).
  rewrite resolve_posts_autoincremented
    by (apply (autoincremented_create _ db), H).
  rewrite resolve_createPost_rows, reverse_app. reflexivity.
Qed.

Definition two_posts : PrismaClient :=
  create_all [ {| data_title := "first"; data_body := "one" |};
               {| data_title := "second"; data_body := "two" |} ] empty_db.

Lemma posts_after_createPost_witness :
  resolve_posts {| q_select := None |}
    (snd (resolve_createPost {| q_select := None |} "third" "three" two_posts))
  = fst (resolve_createPost {| q_select := None |} "third" "three" two_posts)
    :: resolve_posts {| q_select := None |} two_posts.
Proof.
  apply (posts_after_createPost {| q_select := None |} {| q_select := None |}
           "third" "three" two_posts).
  apply autoincremented_create_all, autoincremented_empty.
Defined.

Lemma increasing_ids_NoDup (l : list Post) :
  StronglySorted (fun a b => id a < id b) l -> NoDup (map id l).
Proof.
  induction 1 as [|a l Hl IH Ha]; simpl; constructor; [| exact IH].
  rewrite list_elem_of_In, in_map_iff. intros (b & Hid & Hb).
  rewrite Forall_forall in Ha. apply list_elem_of_In in Hb.
  specialize (Ha b Hb). lia.
Qed.

(** X2: [createPost] gives the new post an identifier larger than every
    identifier in the table, keeps the rows that were there, in place, and
    leaves all identifiers pairwise distinct. *)
Theorem createPost_fresh_identifier (query : PothosQuery)
  (title body : string) (db : PrismaClient) :
  autoincremented db ->
  Forall (fun p => id p < id (fst (resolve_createPost query title body db)))
         (rows db)
  /\ rows (snd (resolve_createPost query title body db))
     = rows db ++ [ {| id := id (fst (resolve_createPost query title body db));
                       title := title; body := body |} ]
  /\ NoDup (map id (rows (snd (resolve_createPost query title body db))))
  /\ autoincremented (snd (resolve_createPost query title body db)).
Proof.
  intros H. split; [| split; [| split]].
  - destruct H as [_ Hb]. eapply Forall_impl; [exact Hb |].
    simpl. intros p Hp. lia.
  - reflexivity.
  - apply increasing_ids_NoDup.
    apply (autoincremented_create {| data_title := title; data_body := body |} db H).
  - apply (autoincremented_create {| data_title := title; data_body := body |} db H).
Qed.

Lemma createPost_fresh_identifier_witness :
  Forall (fun p => id p < id (fst (resolve_createPost {| q_select := None |}
                                     "third" "three" two_posts)))
         (rows two_posts)
  /\ rows (snd (resolve_createPost {| q_select := None |} "third" "three" two_posts))
     = rows two_posts
       ++ [ {| id := id (fst (resolve_createPost {| q_select := None |}
                                "third" "three" two_posts));
               title := "third"; body := "three" |} ]
  /\ NoDup (map id (rows (snd (resolve_createPost {| q_select := None |}
                                 "third" "three" two_posts))))
  /\ autoincremented (snd (resolve_createPost {| q_select := None |}
                             "third" "three" two_posts)).
Proof.
  apply (createPost_fresh_identifier {| q_select := None |} "third" "three"
           two_posts).
  apply autoincremented_create_all, autoincremented_empty.
Defined.

(** The resolver as the README lists it:
<<
  // Return the 10 most recent posts
  prisma.post.findMany({ ...query, orderBy: { id: "desc" }, take: 10 })
>> *)
Definition resolve_posts_recent (query : PothosQuery) (db : PrismaClient)
  : list Post :=
  findMany {| select := q_select query;
              orderBy := Some (Post_id, desc);
              take := Some 10%nat |} db.

(** X3: the resolver with [take: 10] returns the first ten posts of the
    full descending list, or all of them when there are fewer: as many as
    the smaller of ten and the size of the table, largest identifier first,
    and every post it leaves out has an identifier no larger than any it
    returns. *)
Theorem posts_recent_ten (query : PothosQuery) (db : PrismaClient) :
  resolve_posts_recent query db = firstn 10 (resolve_posts query db)
  /\ List.length (resolve_posts_recent query db)
     = Nat.min 10 (List.length (rows db))
  /\ StronglySorted (fun a b => id b <= id a) (resolve_posts_recent query db)
  /\ (forall p r, p ∈ rows db -> p ∉ resolve_posts_recent query db ->
                  r ∈ resolve_posts_recent query db -> id p <= id r).
Proof.
  assert (E : resolve_posts_recent query db = firstn 10 (resolve_posts query db))
    by reflexivity.
  assert (Hsorted : StronglySorted by_id_desc (resolve_posts query db)).
  { rewrite resolve_posts_unfold. apply StronglySorted_merge_sort; apply _. }
  assert (Hperm : resolve_posts query db ≡ₚ rows db).
  { rewrite resolve_posts_unfold. apply merge_sort_Permutation. }
  rewrite <- (firstn_skipn 10 (resolve_posts query db)) in Hsorted.
  split; [exact E | split; [| split]].
  - rewrite E, length_firstn, (Permutation_length Hperm). reflexivity.
  - rewrite E. apply (StronglySorted_app_1_l _ _ _ Hsorted).
  - intros p r Hp Hnot Hr. rewrite E in Hnot, Hr.
    rewrite <- Hperm, <- (firstn_skipn 10 (resolve_posts query db)) in Hp.
    apply elem_of_app in Hp as [Hp | Hp]; [contradiction |].
    apply (StronglySorted_app_1_elem_of _ _ _ r p Hsorted Hr Hp).
Qed.

End Resolvers.

(** ** The running system *)

Section System.
Import Prisma Schema Fs Publisher Server.

(** Steps one after the other. *)
Definition run_all (cwd : string) (steps : list Step) (w : World) : World :=
  foldl (fun w s => run cwd s w) w steps.

Lemma with_files_database {A} (m : IO FileSystem A) w :
  database (snd (with_files m w)) = database w.
Proof. unfold with_files. destruct (m (files w)); reflexivity. Qed.

Lemma run_database cwd s w :
  database (run cwd s w) = database w
  \/ exists query title body,
       database (run cwd s w)
       = snd (resolve_createPost query title body (database w)).
Proof.
  destruct s as [| | [selection | title body selection]]; simpl.
  - left. unfold post_build_ts. apply with_files_database.
  - left. unfold index_ts, bind, listen. simpl.
    apply (with_files_database (writeSchema cwd)
             {| files := files w; database := database w;
                listening := Some 4000 |}).
  - left. destruct (valid_selection selection); reflexivity.
  - destruct (valid_selection selection); [| left; reflexivity].
    right. exists {| q_select := Some selection |}, title, body. reflexivity.
Qed.

(** X4: whatever steps the system takes (builds, server starts, requests
    of either kind), the rows that were in the table stay, in place and
    unchanged, new rows are only added after them, identifiers stay
    strictly increasing along the table, and [posts] at any moment returns
    the table in reverse order of creation. *)
Theorem system_keeps_posts (cwd : string) (steps : list Step) (w : World) :
  autoincremented (database w) ->
  autoincremented (database (run_all cwd steps w))
  /\ (exists added,
        rows (database (run_all cwd steps w)) = rows (database w) ++ added)
  /\ (forall query,
        resolve_posts query (database (run_all cwd steps w))
        = reverse (rows (database (run_all cwd steps w)))).
Proof.
  revert w. induction steps as [|s steps IH]; intros w H; simpl.
  - split; [exact H |]. split; [exists []; rewrite app_nil_r; reflexivity |].
    intros query. apply resolve_posts_autoincremented, H.
  - assert (Hstep : autoincremented (database (run cwd s w))
                    /\ exists added, rows (database (run cwd s w))
                                     = rows (database w) ++ added).
    { destruct (run_database cwd s w) as [E | (query & title & body & E)];
        rewrite E.
      - split; [exact H | exists []; rewrite app_nil_r; reflexivity].
      - split; [apply (autoincremented_create _ _ H) |].
        eexists. reflexivity. }
    destruct Hstep as [Hinv [added Hadded]].
    destruct (IH _ Hinv) as (H1 & [added' H2] & H3).
    split; [exact H1 |]. split; [| exact H3].
    exists (added ++ added'). rewrite H2, Hadded, app_assoc. reflexivity.
Qed.

Definition fresh_world : World :=
  {| files := {[ ["srv"] := Dir; ["srv"; "app"] := Dir ]};
     database := empty_db; listening := None |}.

(** A built checkout with an empty table, before the server starts. *)
Definition built_world : World :=
  {| files := {[ ["srv"] := Dir; ["srv"; "app"] := Dir;
                 ["srv"; "app"; "build"] := Dir ]};
     database := empty_db; listening := None |}.

Lemma system_keeps_posts_witness :
  autoincremented
    (database (run_all "/srv/app"
                 [Startup; Request (createPost "A" "B" ["id"]);
                  Request (posts ["id"; "title"])] built_world))
  /\ (exists added,
        rows (database (run_all "/srv/app"
                 [Startup; Request (createPost "A" "B" ["id"]);
                  Request (posts ["id"; "title"])] built_world))
        = rows (database built_world) ++ added)
  /\ (forall query,
        resolve_posts query
          (database (run_all "/srv/app"
                 [Startup; Request (createPost "A" "B" ["id"]);
                  Request (posts ["id"; "title"])] built_world))
        = reverse (rows (database (run_all "/srv/app"
                 [Startup; Request (createPost "A" "B" ["id"]);
                  Request (posts ["id"; "title"])] built_world)))).
Proof.
  apply (system_keeps_posts "/srv/app"
           [Startup; Request (createPost "A" "B" ["id"]);
            Request (posts ["id"; "title"])] built_world).
  apply autoincremented_empty.
Defined.

(** X5: started in a working directory that exists and has no [build/],
    [index.ts] has bound port 4000 when its [await writeSchema()] rejects
    with ENOENT; nothing is written and the database is not touched. *)
Theorem startup_rejects_without_build_directory (segs : list string)
  (w : World) :
  Forall (fun seg => plain_segment seg = true) segs ->
  walk (files w) [] segs = Resolved tt ->
  files w !! (segs ++ ["build"]) = None ->
  index_ts (directory segs) w
  = (Rejected ENOENT,
     {| files := files w; database := database w; listening := Some 4000 |}).
Proof.
  intros Hsegs Hcwd Hbuild.
  unfold index_ts, bind, listen, with_files, writeSchema. simpl files.
  rewrite (writeSchema_needs_build_directory schema segs (files w) Hsegs Hcwd Hbuild).
  reflexivity.
Qed.

Lemma startup_rejects_without_build_directory_witness :
  index_ts (directory ["srv"; "app"]) fresh_world
  = (Rejected ENOENT,
     {| files := files fresh_world; database := database fresh_world;
        listening := Some 4000 |}).
Proof.
  apply (startup_rejects_without_build_directory ["srv"; "app"] fresh_world).
  - repeat constructor.
  - reflexivity.
  - reflexivity.
Defined.

End System.

(** ** What publishing does to the file system *)

Section PublishingEffects.
Import Schema Fs Publisher.

Lemma writeFile_path_effect (p data : string) (fs : FileSystem) :
  writeFile_path p data fs
  = (fst (writeFile_path p data fs),
     if is_resolved (fst (writeFile_path p data fs))
     then <[components p := File data]> fs else fs).
Proof.
  unfold writeFile_path. destruct (has_null_byte p); [reflexivity |].
  destruct (components p) as [|c comps]; [reflexivity |].
  destruct (walk fs [] (removelast (c :: comps))) as [[]|e]; [| reflexivity].
  destruct (fs !! (c :: comps)) as [[|content]|]; reflexivity.
Qed.

(** X6: [writeSchema] of [packages/api/src/schema.ts], in any working
    directory and on any file system, whether it resolves or rejects,
    leaves every entry other than its target as it was: it creates,
    changes and removes nothing elsewhere. *)
Theorem writeSchema_touches_only_target (s : GraphQLSchema) (cwd : string)
  (fs : FileSystem) (k : list string) :
  (forall p, target cwd = Resolved p -> k <> components p) ->
  snd (writeSchema_of s cwd fs) !! k = fs !! k.
Proof.
  unfold writeSchema_of, writeFile, target, bind, lift, then_.
  destruct (new_URL "build/schema.graphql" (cwd_url cwd)) as [u|e];
    [| reflexivity].
  destruct (fileURLToPath u) as [p|e]; [| reflexivity].
  intros Hk. rewrite writeFile_path_effect. simpl snd.
  destruct (is_resolved (fst (writeFile_path p (printSchema s) fs)));
    [| reflexivity].
  apply lookup_insert_ne. intros E. exact (Hk p eq_refl (eq_sym E)).
Qed.

(** A checkout with an artifact from an earlier build and a manifest. *)
Definition checkout_with_manifest : FileSystem :=
  {[ ["srv"] := Dir;
     ["srv"; "app"] := Dir;
     ["srv"; "app"; "package.json"] := File "{}";
     ["srv"; "app"; "build"] := Dir;
     ["srv"; "app"; "build"; "schema.graphql"] := File "type Query" ]}.

Lemma writeSchema_touches_only_target_witness :
  snd (writeSchema_of schema "/srv/app" checkout_with_manifest)
    !! ["srv"; "app"; "package.json"]
  = checkout_with_manifest !! ["srv"; "app"; "package.json"].
Proof.
  apply (writeSchema_touches_only_target schema "/srv/app"
           checkout_with_manifest ["srv"; "app"; "package.json"]).
  intros p H. vm_compute in H. injection H as <-. vm_compute. discriminate.
Defined.

(** X7: in a working directory with plain names that exists, what
    [writeSchema] of [packages/api/src/schema.ts] does is decided by two
    entries. Without [build/] it rejects with ENOENT; with a file named
    [build] it rejects with ENOTDIR; with a directory where the artifact
    should be it rejects with EISDIR; in each case nothing is written.
    Otherwise it resolves and the artifact holds the printed schema,
    whatever it held before. *)
Theorem writeSchema_outcome (s : GraphQLSchema) (segs : list string)
  (fs : FileSystem) :
  Forall (fun seg => plain_segment seg = true) segs ->
  walk fs [] segs = Resolved tt ->
  writeSchema_of s (directory segs) fs
  = match fs !! (segs ++ ["build"]) with
    | None => (Rejected ENOENT, fs)
    | Some (File _) => (Rejected ENOTDIR, fs)
    | Some Dir =>
        match fs !! artifact_of segs with
        | Some Dir => (Rejected EISDIR, fs)
        | _ => (Resolved tt, <[artifact_of segs := File (printSchema s)]> fs)
        end
    end.
Proof.
  intros Hsegs Hcwd. unfold writeSchema_of.
  rewrite writeFile_artifact by exact Hsegs.
  rewrite walk_app, Hcwd. simpl.
  destruct (fs !! (segs ++ ["build"])) as [[|content]|]; reflexivity.
Qed.

(** A checkout with an artifact from an earlier build. *)
Definition earlier_build : FileSystem :=
  {[ ["srv"] := Dir;
     ["srv"; "app"] := Dir;
     ["srv"; "app"; "build"] := Dir;
     ["srv"; "app"; "build"; "schema.graphql"] := File "type Query" ]}.

Lemma writeSchema_outcome_witness :
  writeSchema_of schema (directory ["srv"; "app"]) earlier_build
  = match earlier_build !! (["srv"; "app"] ++ ["build"]) with
    | None => (Rejected ENOENT, earlier_build)
    | Some (File _) => (Rejected ENOTDIR, earlier_build)
    | Some Dir =>
        match earlier_build !! artifact_of ["srv"; "app"] with
        | Some Dir => (Rejected EISDIR, earlier_build)
        | _ => (Resolved tt,
                <[artifact_of ["srv"; "app"] := File (printSchema schema)]>
                  earlier_build)
        end
    end.
Proof.
  apply (writeSchema_outcome schema ["srv"; "app"] earlier_build).
  - repeat constructor.
  - reflexivity.
Defined.

Lemma mkdir_from_app (slash : bool) (a b prefix : list string)
  (fs : FileSystem) :
  walk fs prefix a = Resolved tt ->
  mkdir_from slash prefix (a ++ b) fs = mkdir_from slash (prefix ++ a) b fs.
Proof.
  revert prefix. induction a as [|d a IH]; intros prefix; simpl.
  - rewrite app_nil_r. reflexivity.
  - destruct (fs !! (prefix ++ [d])) as [[|content]|]; try discriminate.
    intros H. rewrite IH by exact H. rewrite <- app_assoc. reflexivity.
Qed.

Lemma build_not_artifact segs : segs ++ ["build"] <> artifact_of segs.
Proof.
  unfold artifact_of. intros E. apply (f_equal List.length) in E.
  rewrite !length_app in E. simpl in E. lia.
Qed.

(** X8: in a working directory with plain names that exists, the revision
    of [writeSchema] that calls [mkdir] first rejects with ENOTDIR when a
    file is named [build] (the path it gives [mkdir] ends with a slash)
    and writes nothing; when [build/] is missing it makes it and writes
    the artifact; when [build/] is there it writes the artifact unless a
    directory sits in its place (EISDIR, nothing written). *)
Theorem writeSchema_mkdir_outcome (s : GraphQLSchema) (segs : list string)
  (fs : FileSystem) :
  Forall (fun seg => plain_segment seg = true) segs ->
  walk fs [] segs = Resolved tt ->
  (fs !! (segs ++ ["build"]) = None -> fs !! artifact_of segs = None) ->
  writeSchema_mkdir_of s (directory segs) fs
  = match fs !! (segs ++ ["build"]) with
    | Some (File _) => (Rejected ENOTDIR, fs)
    | Some Dir =>
        match fs !! artifact_of segs with
        | Some Dir => (Rejected EISDIR, fs)
        | _ => (Resolved tt, <[artifact_of segs := File (printSchema s)]> fs)
        end
    | None =>
        (Resolved tt,
         <[artifact_of segs := File (printSchema s)]>
           (<[segs ++ ["build"] := Dir]> fs))
    end.
Proof.
  intros Hsegs Hcwd Htree. unfold writeSchema_mkdir_of, bind.
  rewrite mkdir_build by exact Hsegs.
  rewrite mkdir_from_app by exact Hcwd. simpl.
  destruct (fs !! (segs ++ ["build"])) as [[|content]|] eqn:Ebuild;
    try reflexivity.
  - rewrite writeFile_artifact by exact Hsegs.
    rewrite walk_app, Hcwd. simpl. rewrite Ebuild. reflexivity.
  - rewrite writeFile_artifact by exact Hsegs.
    rewrite walk_app.
    rewrite walk_insert_deeper by (rewrite length_app; simpl; lia).
    rewrite Hcwd. simpl. rewrite lookup_insert_eq.
    rewrite lookup_insert_ne by apply build_not_artifact.
    rewrite (Htree eq_refl). reflexivity.
Qed.

Definition bare_checkout : FileSystem :=
  {[ ["srv"] := Dir; ["srv"; "app"] := Dir ]}.

(** A checkout in which [build] is a file. *)
Definition build_is_a_file : FileSystem :=
  {[ ["srv"] := Dir; ["srv"; "app"] := Dir;
     ["srv"; "app"; "build"] := File "notes" ]}.

(** A checkout in which a directory sits where the artifact goes. *)
Definition artifact_is_a_directory : FileSystem :=
  {[ ["srv"] := Dir; ["srv"; "app"] := Dir;
     ["srv"; "app"; "build"] := Dir;
     ["srv"; "app"; "build"; "schema.graphql"] := Dir ]}.

Lemma writeSchema_mkdir_outcome_witness :
  writeSchema_mkdir_of schema (directory ["srv"; "app"]) build_is_a_file
  = match build_is_a_file !! (["srv"; "app"] ++ ["build"]) with
    | Some (File _) => (Rejected ENOTDIR, build_is_a_file)
    | Some Dir =>
        match build_is_a_file !! artifact_of ["srv"; "app"] with
        | Some Dir => (Rejected EISDIR, build_is_a_file)
        | _ => (Resolved tt,
                <[artifact_of ["srv"; "app"] := File (printSchema schema)]>
                  build_is_a_file)
        end
    | None =>
        (Resolved tt,
         <[artifact_of ["srv"; "app"] := File (printSchema schema)]>
           (<[["srv"; "app"] ++ ["build"] := Dir]> build_is_a_file))
    end.
Proof.
  apply (writeSchema_mkdir_outcome schema ["srv"; "app"] build_is_a_file).
  - repeat constructor.
  - reflexivity.
  - intros H. vm_compute in H. discriminate H.
Defined.

(** The four outcomes, each on a checkout of its own. *)
Example writeSchema_mkdir_on_file :
  writeSchema_mkdir "/srv/app" build_is_a_file
  = (Rejected ENOTDIR, build_is_a_file).
Proof. vm_compute. reflexivity. Qed.

Example writeSchema_mkdir_on_bare_checkout :
  writeSchema_mkdir "/srv/app" bare_checkout
  = (Resolved tt,
     <[ ["srv"; "app"; "build"; "schema.graphql"] := File (printSchema schema) ]>
       (<[ ["srv"; "app"; "build"] := Dir ]> bare_checkout)).
Proof. vm_compute. reflexivity. Qed.

Example writeSchema_mkdir_on_earlier_build :
  writeSchema_mkdir "/srv/app" earlier_build
  = (Resolved tt,
     <[ ["srv"; "app"; "build"; "schema.graphql"] := File (printSchema schema) ]>
       earlier_build).
Proof. vm_compute. reflexivity. Qed.

Example writeSchema_mkdir_on_directory :
  writeSchema_mkdir "/srv/app" artifact_is_a_directory
  = (Rejected EISDIR, artifact_is_a_directory).
Proof. vm_compute. reflexivity. Qed.





End PublishingEffects.

(** ** The artifact's place *)

Section ArtifactPlace.
Import Schema Fs Publisher.

Lemma writeSchema_mkdir_creates_directories_witness :
  exists fs' : FileSystem,
    writeSchema_mkdir_of schema (directory ["srv"; "app"]) bare_checkout
    = (Resolved tt, fs')
    /\ fs' !! (["srv"; "app"] ++ ["build"]) = Some Dir
    /\ fs' !! artifact_of ["srv"; "app"] = Some (File (printSchema schema)).
Proof.
  apply (writeSchema_mkdir_creates_directories schema ["srv"; "app"]
           bare_checkout).
  - repeat constructor.
  - reflexivity.
  - intros content H. vm_compute in H. discriminate H.
  - intros H. vm_compute in H. discriminate H.
Defined.

Lemma publish_mkdir_twice_identical_witness :
  snd (writeSchema_mkdir_of schema (directory ["srv"; "app"]) bare_checkout)
    !! artifact_of ["srv"; "app"] = Some (File (printSchema schema))
  /\ writeSchema_mkdir_of schema (directory ["srv"; "app"])
       (snd (writeSchema_mkdir_of schema (directory ["srv"; "app"])
               bare_checkout))
     = (Resolved tt,
        snd (writeSchema_mkdir_of schema (directory ["srv"; "app"])
               bare_checkout)).
Proof.
  apply (publish_mkdir_twice_identical schema ["srv"; "app"] bare_checkout).
  - repeat constructor.
  - vm_compute. reflexivity.
Defined.

Lemma target_plain_injective_witness :
  target (directory ["srv"; "app"]) <> target (directory ["srv"; "guestbook"]).
Proof.
  apply (target_plain_injective ["srv"; "app"] ["srv"; "guestbook"]).
  - repeat constructor.
  - repeat constructor.
  - discriminate.
Defined.

(** X12: for a working directory with plain names, the target of
    [writeSchema] is the working directory followed by
    [/build/schema.graphql] (with the extra leading slash that
    [file:///] and the directory's own slash leave), that is the file
    [schema.graphql] in [build] below the working directory. *)
Theorem artifact_below_working_directory (segs : list string) :
  Forall (fun seg => plain_segment seg = true) segs ->
  target (directory segs)
  = Resolved ("/" +:+ directory segs +:+ "/build/schema.graphql")
  /\ components ("/" +:+ directory segs +:+ "/build/schema.graphql")
     = segs ++ ["build"; "schema.graphql"].
Proof.
  intros Hsegs. destruct (target_plain segs Hsegs) as [Htarget Hcomps].
  assert (E : "/" +:+ absolute (artifact_of segs)
              = "/" +:+ directory segs +:+ "/build/schema.graphql").
  { unfold artifact_of, directory. rewrite absolute_app. reflexivity. }
  rewrite <- E. split; assumption.
Qed.

Lemma artifact_below_working_directory_witness :
  target (directory ["home"; "dev"; "typed-board"])
  = Resolved ("/" +:+ directory ["home"; "dev"; "typed-board"]
                  +:+ "/build/schema.graphql")
  /\ components ("/" +:+ directory ["home"; "dev"; "typed-board"]
                     +:+ "/build/schema.graphql")
     = ["home"; "dev"; "typed-board"] ++ ["build"; "schema.graphql"].
Proof.
  apply (artifact_below_working_directory ["home"; "dev"; "typed-board"]).
  repeat constructor.
Defined.

(** *** A [#] or [?] in the working directory *)

Lemma parse_file_url_rest rest :
  parse_file_url ("file:///" +:+ rest)
  = Resolved (path_state [] "" (remove_tab_newline rest)).
Proof.
  unfold parse_file_url. rewrite remove_tab_newline_app.
  change (remove_tab_newline "file:///") with "file:///".
  set (r := remove_tab_newline rest).
  assert (Hprefix : String.prefix "file:///" ("file:///" +:+ r) = true)
    by (apply String.prefix_correct; destruct r; reflexivity).
  rewrite Hprefix. f_equal. f_equal.
  change (String.length ("file:///" +:+ r)) with (8 + String.length r)%nat.
  replace (8 + String.length r - 8)%nat with (String.length r) by lia.
  change (String.substring 8 (String.length r) ("file:///" +:+ r))
    with (String.substring 0 (String.length r) r).
  apply substring_all.
Qed.

Lemma url_path_query_state path query input :
  url_path (query_state path query input) = path.
Proof.
  revert query. induction input as [|c input IH]; intros query; simpl.
  - reflexivity.
  - destruct (Ascii.eqb c "#"); [reflexivity | apply IH].
Qed.

(** What follows the first [#] or [?] has no part in the path. *)
Lemma path_state_cut (c : ascii) (x y y' : string) (path : list string)
  (buffer : string) :
  c = "#"%char \/ c = "?"%char ->
  url_path (path_state path buffer (x +:+ String c y))
  = url_path (path_state path buffer (x +:+ String c y')).
Proof.
  intros Hc. revert path buffer.
  induction x as [|d x IH]; intros path buffer.
  - destruct Hc as [-> | ->]; simpl; rewrite ?url_path_query_state; reflexivity.
  - rewrite !string_app_cons. simpl.
    destruct (is_slash d); [apply IH |].
    destruct (Ascii.eqb d "?"); [rewrite !url_path_query_state; reflexivity |].
    destruct (Ascii.eqb d "#"); [reflexivity | apply IH].
Qed.

Lemma target_by_base_path cwd :
  target cwd
  = fileURLToPath
      (path_state
         (shorten (url_path (path_state [] ""
                               (remove_tab_newline (cwd +:+ "/")))))
         "" "build/schema.graphql").
Proof.
  unfold target, new_URL, cwd_url. rewrite parse_file_url_rest. reflexivity.
Qed.

Lemma target_cut (c : ascii) (a r r' : string) :
  c = "#"%char \/ c = "?"%char ->
  target (a +:+ String c r) = target (a +:+ String c r').
Proof.
  intros Hc. rewrite !target_by_base_path. do 3 f_equal.
  rewrite !string_app_assoc, !string_app_cons, !remove_tab_newline_app.
  assert (Hkeep : forall z, remove_tab_newline (String c z)
                            = String c (remove_tab_newline z)).
  { intros z. destruct Hc as [-> | ->]; reflexivity. }
  rewrite !Hkeep. apply path_state_cut, Hc.
Qed.

(** X14: whatever follows the first [#] or [?] in the working directory
    has no influence on where [writeSchema] writes: two working
    directories that agree up to such a character have the same target. *)
Theorem target_ignores_fragment_and_query (a r r' : string) :
  target (a +:+ "#" +:+ r) = target (a +:+ "#" +:+ r')
  /\ target (a +:+ "?" +:+ r) = target (a +:+ "?" +:+ r').
Proof. split; apply target_cut; auto. Qed.

End ArtifactPlace.

(** ** The generated tables and the schema *)

Section GeneratedTables.
Import Schema Zeus.

Lemma lookup_list_to_map_find {A B} (key : A -> string) (val : A -> B)
  (l : list A) (k : string) :
  (list_to_map (map (fun x => (key x, val x)) l) : gmap string B) !! k
  = val <$> List.find (fun x => String.eqb (key x) k) l.
Proof.
  induction l as [|x l IH]; simpl.
  - apply lookup_empty.
  - destruct (String.eqb_spec (key x) k) as [-> | Hne].
    + apply lookup_insert_eq.
    + rewrite lookup_insert_ne by exact Hne. exact IH.
Qed.

Lemma return_types_of_lookup (s : GraphQLSchema) (ty fld : string) :
  (return_types_of s !! ty) ≫= (fun fields => fields !! fld)
  = (fun f => base_name (field_type f)) <$> find_field s ty fld.
Proof.
  unfold return_types_of, find_field, find_type.
  rewrite (lookup_list_to_map_find type_name
             (fun t => list_to_map
                         (map (fun f => (field_name f, base_name (field_type f)))
                              (type_fields t)))).
  destruct (List.find (fun t => String.eqb (type_name t) ty) (types s)) as [t|];
    simpl; [| reflexivity].
  apply (lookup_list_to_map_find field_name
           (fun f => base_name (field_type f))).
Qed.

(** X15: the table [ReturnTypes] of [const.ts] agrees with the schema of
    [schema.ts] on every name: for a type and a field the schema declares
    it gives the named type of the field (under its list and non-null
    wrappers), and it has no entry for anything else. *)
Theorem ReturnTypes_agrees_with_schema (ty fld : string) :
  (ReturnTypes !! ty) ≫= (fun fields => fields !! fld)
  = (fun f => base_name (field_type f)) <$> find_field schema ty fld.
Proof.
  rewrite <- return_types_of_lookup.
  assert (E : return_types_of schema = ReturnTypes) by (vm_compute; reflexivity).
  rewrite E. reflexivity.
Qed.

(** The schema of [schema.ts], written out. *)
Definition schema_written_out : GraphQLSchema :=
  {| types :=
       [ {| type_name := "Mutation";
            type_fields :=
              [ {| field_name := "createPost";
                   field_args :=
                     [ {| arg_name := "body"; arg_type := NonNull (Named "String") |};
                       {| arg_name := "title"; arg_type := NonNull (Named "String") |} ];
                   field_type := NonNull (Named "Post") |} ] |};
         {| type_name := "Post";
            type_fields :=
              [ {| field_name := "body"; field_args := [];
                   field_type := NonNull (Named "String") |};
                {| field_name := "id"; field_args := [];
                   field_type := NonNull (Named "ID") |};
                {| field_name := "title"; field_args := [];
                   field_type := NonNull (Named "String") |} ] |};
         {| type_name := "Query";
            type_fields :=
              [ {| field_name := "posts"; field_args := [];
                   field_type := NonNull (ListOf (NonNull (Named "Post"))) |} ] |} ] |}.

Lemma schema_is_written_out : schema = schema_written_out.
Proof. vm_compute. reflexivity. Qed.

Lemma find_field_arguments (ty fld : string) (f : FieldDef) :
  find_field schema ty fld = Some f ->
  field_args f <> [] -> ty = "Mutation" /\ fld = "createPost".
Proof.
  rewrite schema_is_written_out. unfold find_field, find_type.
  cbn -[String.eqb].
  destruct (String.eqb_spec "Mutation" ty) as [<- | _]; cbn -[String.eqb].
  - destruct (String.eqb_spec "createPost" fld) as [<- | _];
      [tauto | intros H; discriminate H].
  - destruct (String.eqb_spec "Post" ty) as [<- | _]; cbn -[String.eqb].
    + destruct (String.eqb "body" fld); [intros [= <-] H; contradiction |].
      destruct (String.eqb "id" fld); [intros [= <-] H; contradiction |].
      destruct (String.eqb "title" fld); [intros [= <-] H; contradiction |].
      intros H; discriminate H.
    + destruct (String.eqb "Query" ty); cbn -[String.eqb];
        [| intros H; discriminate H].
      destruct (String.eqb "posts" fld); [intros [= <-] H; contradiction |].
      intros H; discriminate H.
Qed.

(** X16: the table [AllTypesProps] of [const.ts] has an entry exactly for
    the fields of the schema that take arguments (the one field
    [Mutation.createPost]), and both root types that [Ops] names are
    object types of the schema. *)
Theorem AllTypesProps_lists_fields_with_arguments (ty fld : string) :
  (is_Some ((AllTypesProps !! ty) ≫= (fun fields => fields !! fld))
   <-> exists f, find_field schema ty fld = Some f /\ field_args f <> [])
  /\ (forall o, is_Some (find_type schema (Ops o))).
Proof.
  split.
  - split.
    + intros [args H]. unfold AllTypesProps in H.
      destruct (decide (ty = "Mutation")) as [-> | Hty].
      * rewrite lookup_singleton_eq in H. simpl in H.
        destruct (decide (fld = "createPost")) as [-> | Hfld].
        -- eexists. split; [reflexivity | discriminate].
        -- rewrite lookup_singleton_ne in H by congruence. discriminate.
      * rewrite lookup_singleton_ne in H by congruence. discriminate.
    + intros (f & Hf & Hargs).
      destruct (find_field_arguments ty fld f Hf Hargs) as [-> ->].
      exists ∅. reflexivity.
  - intros []; eexists; reflexivity.
Qed.

End GeneratedTables.

(** ** The page: [src/routes/+page.ts] and [src/routes/+page.svelte] *)

Module Page.
Import Zeus Transport.

(** The component's variables: the [data] prop and the two bound inputs. *)
Record PageState := { data : Json; title : string; body : string }.

(** The browser tab: the requests it has sent and the page it shows. *)
Record Browser := { network : Network; page : PageState }.

Definition on_network {A} (m : IO Network A) : IO Browser A :=
  fun b =>
    let '(r, sent) := m (network b) in
    (r, {| network := sent; page := page b |}).

(** [title = body = ""] *)
Definition clear_inputs : IO Browser unit :=
  fun b =>
    (Resolved tt,
     {| network := network b;
        page := {| data := data (page b); title := ""; body := "" |} |}).

Section Routes.

Variable Zeus_text : OperationType -> Selection -> string.

(** [+page.ts]:
<<
  export const load: PageLoad = async ({ fetch }) =>
    query({ posts: { id: true, title: true, body: true } }, { fetch });
>> *)
Definition load (fetch : Fetch) : IO Network Json :=
  query Zeus_text posts_query fetch.

(** The ambient [fetch] of the browser, and SvelteKit's [invalidateAll]. *)
Variable ambient_fetch : Fetch.
Variable invalidateAll : IO Browser unit.

(** [+page.svelte]:
<<
  const createPost = async () => {
    await mutate({ createPost: [{ body, title }, { id: true }] });
    await invalidateAll();
    title = body = "";
  };
>> *)
Definition createPost : IO Browser unit :=
  fun b =>
    (await _ <- on_network
                  (mutate Zeus_text ambient_fetch
                     (createPost_mutation (title (page b)) (body (page b))));
     await _ <- invalidateAll;
     clear_inputs) b.

End Routes.

(** An [invalidateAll] that runs [load] again over a [fetch] and shows
    what it returns. *)
Definition rerun_load (Zeus_text : OperationType -> Selection -> string)
  (fetch : Fetch) : IO Browser unit :=
  fun b =>
    match load Zeus_text fetch (network b) with
    | (Resolved d, sent) =>
        (Resolved tt,
         {| network := sent;
            page := {| data := d; title := title (page b);
                       body := body (page b) |} |})
    | (Rejected e, sent) =>
        (Rejected e, {| network := sent; page := page b |})
    end.

End Page.

Section PageBehaviour.
Import Zeus Transport Page.

(** The request [createPost] sends for what the form holds. *)
Definition mutation_request (Zeus_text : OperationType -> Selection -> string)
  (b : Browser) : Request :=
  request_for Zeus_text mutation_op
    (createPost_mutation (title (page b)) (body (page b))).

(** X17: when the mutation call fails (the fetch rejects, or the body of
    the reply is not JSON, or it is [null]), [createPost] rejects with the
    same error right there: the one request has been sent,
    [invalidateAll] is not called, and the form keeps what was typed. *)
Theorem createPost_stops_on_rejection
  (Zeus_text : OperationType -> Selection -> string)
  (respond : Request -> Promise Response) (invalidateAll : IO Browser unit)
  (b : Browser) (e : Error) :
  delivered (respond (mutation_request Zeus_text b)) = Rejected e ->
  createPost Zeus_text (fetch_from respond) invalidateAll b
  = (Rejected e,
     {| network := network b ++ [mutation_request Zeus_text b];
        page := page b |}).
Proof.
  intros H. unfold createPost, bind, on_network, mutate.
  rewrite thunder_spec. fold (mutation_request Zeus_text b). rewrite H.
  reflexivity.
Qed.

Definition operation_name (operation : OperationType) (o : Selection) : string :=
  Ops operation.

Definition typing : Browser :=
  {| network := [];
     page := {| data := JObj [("posts", JArr [])];
                title := "Hello"; body := "World" |} |}.

Lemma createPost_stops_on_rejection_witness :
  createPost operation_name (fetch_from (fun _ => Rejected NetworkError))
    (rerun_load operation_name (fetch_from (fun _ => Rejected NetworkError)))
    typing
  = (Rejected NetworkError,
     {| network := network typing ++ [mutation_request operation_name typing];
        page := page typing |}).
Proof.
  apply (createPost_stops_on_rejection operation_name
           (fun _ => Rejected NetworkError)
           (rerun_load operation_name (fetch_from (fun _ => Rejected NetworkError)))
           typing NetworkError).
  reflexivity.
Defined.

(** X18: when the reply to the mutation is a JSON object, whatever its
    status and whether it carries [data] or only [errors], [createPost]
    goes on: it calls [invalidateAll] on a page that still holds what was
    typed, and once that resolves it empties both inputs; if
    [invalidateAll] rejects, [createPost] rejects and empties nothing. So
    a refused post clears the form just like a created one. *)
Theorem createPost_clears_form_on_any_object
  (Zeus_text : OperationType -> Selection -> string)
  (respond : Request -> Promise Response) (invalidateAll : IO Browser unit)
  (b : Browser) (code : Z) (props : list (string * Json)) :
  respond (mutation_request Zeus_text b)
  = Resolved {| status := code; json := Resolved (JObj props) |} ->
  createPost Zeus_text (fetch_from respond) invalidateAll b
  = match invalidateAll
            {| network := network b ++ [mutation_request Zeus_text b];
               page := page b |} with
    | (Resolved _, b') =>
        (Resolved tt,
         {| network := network b';
            page := {| data := data (page b'); title := ""; body := "" |} |})
    | (Rejected e, b') => (Rejected e, b')
    end.
Proof.
  intros H. unfold createPost, bind, on_network, mutate.
  rewrite thunder_spec. fold (mutation_request Zeus_text b). rewrite H.
  simpl delivered.
  destruct (invalidateAll _) as [[[]|e] b']; reflexivity.
Qed.

Lemma createPost_clears_form_on_any_object_witness :
  createPost operation_name (fetch_from (fun _ => error_reply))
    (rerun_load operation_name (fetch_from (fun _ => error_reply))) typing
  = match rerun_load operation_name (fetch_from (fun _ => error_reply))
            {| network := network typing ++ [mutation_request operation_name typing];
               page := page typing |} with
    | (Resolved _, b') =>
        (Resolved tt,
         {| network := network b';
            page := {| data := data (page b'); title := ""; body := "" |} |})
    | (Rejected e, b') => (Rejected e, b')
    end.
Proof.
  apply (createPost_clears_form_on_any_object operation_name
           (fun _ => error_reply)
           (rerun_load operation_name (fetch_from (fun _ => error_reply)))
           typing 200
           [("errors", JArr [JObj [("message", JStr "Unexpected error.")]])]).
  reflexivity.
Defined.

End PageBehaviour.

(** ** The two revisions of [writeSchema] side by side *)

Section Revisions.
Import Schema Fs Publisher.

(** X19: from a working directory with plain names in which [build/]
    and the directories above it exist, the two revisions of
    [writeSchema] do the same thing: the [mkdir] of the one changes
    nothing, and both give the same result and the same file system. *)
Theorem revisions_agree_when_build_exists (s : GraphQLSchema)
  (segs : list string) (fs : FileSystem) :
  Forall (fun seg => plain_segment seg = true) segs ->
  walk fs [] (segs ++ ["build"]) = Resolved tt ->
  writeSchema_mkdir_of s (directory segs) fs = writeSchema_of s (directory segs) fs.
Proof.
  intros Hsegs Hwalk. unfold writeSchema_mkdir_of, writeSchema_of, bind.
  rewrite mkdir_build by exact Hsegs.
  rewrite (mkdir_from_existing true _ _ _ Hwalk). reflexivity.
Qed.

Definition built_checkout : FileSystem :=
  {[ ["srv"] := Dir; ["srv"; "app"] := Dir; ["srv"; "app"; "build"] := Dir ]}.

Lemma revisions_agree_when_build_exists_witness :
  writeSchema_mkdir_of schema (directory ["srv"; "app"]) built_checkout
  = writeSchema_of schema (directory ["srv"; "app"]) built_checkout.
Proof.
  apply (revisions_agree_when_build_exists schema ["srv"; "app"] built_checkout).
  - repeat constructor.
  - reflexivity.
Defined.

End Revisions.
